(** * kratos application lifecycle manager (app.go)

    A shallow embedding of [New], [serviceInstance], [App.Stop] and
    [App.Run].  The sequential parts are plain functions.  [Run] starts
    goroutines, so it is embedded as an executable interleaving semantics:
    a [state] of the one [App] object and of the goroutines of [Run], and
    a function [step] that lets one goroutine (or the environment) make
    one move.  Outcomes of calls into collaborators that are not part of
    app.go (servers, registry, the operating system) are supplied by the
    [action] that makes the move, so that every statement quantifies over
    all schedules and over all behaviours of the collaborators. *)

From stdpp Require Import base numbers strings list gmap.

Open Scope string_scope.
Open Scope list_scope.

(** ** Go values *)

(** Go's [error] values.  A nil error is [None] of [option error]. *)
Inductive error :=
| Canceled                                  (* context.Canceled *)
| DeadlineExceeded                          (* context.DeadlineExceeded *)
| ErrNew (msg : string)                     (* errors.New(msg) *)
| ErrWrap (msg : string) (inner : error).   (* fmt.Errorf("msg: %w", inner) *)

#[global] Instance error_eq_dec : EqDecision error.
Proof. solve_decision. Defined.

(** [errors.Is(err, target)]: walks the Unwrap chain of [err]. *)
Fixpoint errors_Is (err target : error) : bool :=
  if decide (err = target) then true
  else match err with
       | ErrWrap _ inner => errors_Is inner target
       | _ => false
       end.

(** [syscall.Signal] is an integer type; the numbers are those of Linux. *)
Definition Signal := Z.
Definition SIGINT : Signal := 2%Z.
Definition SIGQUIT : Signal := 3%Z.
Definition SIGTERM : Signal := 15%Z.

(** [transport.Server].  [Endpoint] is what the handle's [Endpoint()]
    returns, a (string, error) pair as in Go.  What [Start()] and [Stop()]
    return is decided when they return, see [action]. *)
Record Server := { Endpoint : string * option error }.

(** [registry.Registry]: an opaque handle. *)
Inductive Registry := RegistryHandle (backend : string).

(** [registry.ServiceInstance]. *)
Record ServiceInstance := {
  ID : string;
  Name : string;
  Version : string;
  Metadata : gmap string string;
  Endpoints : list string;
}.

Inductive Logger := DefaultLogger | CustomLogger (sink : string).

(** [log.Helper], the result of [log.NewHelper(name, logger)]. *)
Record Helper := NewHelper { helper_name : string; helper_logger : Logger }.

(** The [context.Context] handed to [New] through the options:
    [context.Background()], which is never done, or a context of the
    caller, of which [Err()] is recorded ([None] while it is live). *)
Inductive context_Context :=
| Background
| Supplied (err : option error).

Definition ctx_Err (c : context_Context) : option error :=
  match c with
  | Background => None
  | Supplied err => err
  end.

(** The struct [options].  Its declaration is in options.go; the fields
    are the ones app.go reads and writes. *)
Record options := {
  id : string;
  name : string;
  version : string;
  metadata : gmap string string;
  endpoints : list string;
  ctx : context_Context;
  sigs : list Signal;
  logger : Logger;
  registry : option Registry;
  servers : list Server;
}.

(** [type Option func(o *options)]. *)
Definition Option := options → options.

Definition set_id (v : string) (o : options) : options :=
  {| id := v; name := name o; version := version o; metadata := metadata o;
     endpoints := endpoints o; ctx := ctx o; sigs := sigs o;
     logger := logger o; registry := registry o; servers := servers o |}.

Definition set_endpoints (v : list string) (o : options) : options :=
  {| id := id o; name := name o; version := version o; metadata := metadata o;
     endpoints := v; ctx := ctx o; sigs := sigs o;
     logger := logger o; registry := registry o; servers := servers o |}.

Definition set_ctx (v : context_Context) (o : options) : options :=
  {| id := id o; name := name o; version := version o; metadata := metadata o;
     endpoints := endpoints o; ctx := v; sigs := sigs o;
     logger := logger o; registry := registry o; servers := servers o |}.

(** Modelled from the spec: the constructors of [Option] are declared in
    options.go, which is not part of src/.  These are the recognised
    options of the construction surface: identity override, display name,
    version, metadata, explicit endpoint list, base context, logger,
    signal set, registry handle, server list.  Each writes one field. *)
Inductive OptionName :=
| OptID (v : string)
| OptName (v : string)
| OptVersion (v : string)
| OptMetadata (v : gmap string string)
| OptEndpoint (v : list string)
| OptContext (v : context_Context)
| OptLogger (v : Logger)
| OptSignal (v : list Signal)
| OptRegistry (v : Registry)
| OptServer (v : list Server).

Definition option_of (n : OptionName) : Option := fun o =>
  match n with
  | OptID v => set_id v o
  | OptName v =>
      {| id := id o; name := v; version := version o; metadata := metadata o;
         endpoints := endpoints o; ctx := ctx o; sigs := sigs o;
         logger := logger o; registry := registry o; servers := servers o |}
  | OptVersion v =>
      {| id := id o; name := name o; version := v; metadata := metadata o;
         endpoints := endpoints o; ctx := ctx o; sigs := sigs o;
         logger := logger o; registry := registry o; servers := servers o |}
  | OptMetadata v =>
      {| id := id o; name := name o; version := version o; metadata := v;
         endpoints := endpoints o; ctx := ctx o; sigs := sigs o;
         logger := logger o; registry := registry o; servers := servers o |}
  | OptEndpoint v => set_endpoints v o
  | OptContext v => set_ctx v o
  | OptLogger v =>
      {| id := id o; name := name o; version := version o; metadata := metadata o;
         endpoints := endpoints o; ctx := ctx o; sigs := sigs o;
         logger := v; registry := registry o; servers := servers o |}
  | OptSignal v =>
      {| id := id o; name := name o; version := version o; metadata := metadata o;
         endpoints := endpoints o; ctx := ctx o; sigs := v;
         logger := logger o; registry := registry o; servers := servers o |}
  | OptRegistry v =>
      {| id := id o; name := name o; version := version o; metadata := metadata o;
         endpoints := endpoints o; ctx := ctx o; sigs := sigs o;
         logger := logger o; registry := Some v; servers := servers o |}
  | OptServer v =>
      {| id := id o; name := name o; version := version o; metadata := metadata o;
         endpoints := endpoints o; ctx := ctx o; sigs := sigs o;
         logger := logger o; registry := registry o; servers := v |}
  end.

(** ** serviceInstance *)

(** The loop [for _, srv := range o.servers] of [serviceInstance]: [k] is
    the index of the head of [srvs] in [o.servers], [eps] is [o.endpoints]
    so far and [calls] lists the handles whose [Endpoint()] has been
    called, in call order. *)
Fixpoint collect_endpoints (k : nat) (srvs : list Server)
    (eps : list string) (calls : list nat) : list string * list nat :=
  match srvs with
  | [] => (eps, calls)
  | srv :: rest =>
      let '(e, err) := Endpoint srv in
      match err with
      | None => collect_endpoints (S k) rest (eps ++ [e]) (calls ++ [k])
      | Some _ => collect_endpoints (S k) rest eps (calls ++ [k])
      end
  end.

(** [serviceInstance(o)], paired with the list of the handles it called
    [Endpoint()] on.  [o] is passed by value: the caller's [options] are
    not changed. *)
Definition serviceInstance (o : options) : ServiceInstance * list nat :=
  let '(eps, calls) :=
    if decide (length (endpoints o) = 0)
    then collect_endpoints 0 (servers o) (endpoints o) []
    else (endpoints o, []) in
  ({| ID := id o; Name := name o; Version := version o;
      Metadata := metadata o; Endpoints := eps |}, calls).

(** ** New *)

(** The struct [App].  [app_ctx] is the state of the context [a.ctx]: what
    its [Err()] returns, [None] while it is live.  [cancel] tells whether
    the field [a.cancel] is non-nil. *)
Record App := {
  opts : options;
  app_ctx : option error;
  cancel : bool;
  instance : ServiceInstance;
  log : Helper;
}.

(** [New(opts...)].  [uuid] is what [uuid.NewUUID()] returns: the text of
    the identifier and the error.  [context.WithCancel] of a parent that
    is done already returns a context that is done with the parent's
    error. *)
Definition New (uuid : string * option error) (os : list Option) : App :=
  let options0 :=
    {| id := ""; name := ""; version := ""; metadata := ∅; endpoints := [];
       ctx := Background;
       sigs := [SIGTERM; SIGQUIT; SIGINT];
       logger := DefaultLogger;
       registry := None; servers := [] |} in
  let options1 :=
    match uuid.2 with
    | None => set_id uuid.1 options0
    | Some _ => options0
    end in
  let options2 := foldl (fun o f => f o) options1 os in
  {| opts := options2;
     app_ctx := ctx_Err (ctx options2);
     cancel := true;
     instance := (serviceInstance options2).1;
     log := NewHelper "app" (logger options2) |}.

(** ** The running program *)

(** What an execution does that is visible from outside app.go. *)
Inductive event :=
| EvInfow (kvs : list (string * string))             (* a.log.Infow(...) *)
| EvRegister (inst : ServiceInstance) (r : option error)
| EvDeregister (inst : ServiceInstance) (r : option error)
| EvCancel                                           (* a.cancel() *)
| EvNotify (sgs : list Signal)                       (* signal.Notify(c, sgs...) *)
| EvStartCall (srv : nat)                            (* srv.Start() entered *)
| EvStartReturn (srv : nat) (r : option error)       (* srv.Start() returned r *)
| EvStopCall (srv : nat)                             (* srv.Stop() entered *)
| EvStopReturn (srv : nat) (r : option error)        (* srv.Stop() returned r *)
| EvWatcherReturn (r : option error).                (* the signal loop returned r *)

(** The three function literals that [Run] hands to [g.Go].  Servers are
    named by their index in [a.opts.servers]. *)
Inductive job :=
| StopOf (srv : nat)     (* <-ctx.Done(); return srv.Stop() *)
| StartOf (srv : nat)    (* return srv.Start() *)
| Watch.                 (* the signal loop *)

(** How far such a function has come. *)
Inductive phase :=
| Pending                (* [StopOf]: blocked in [<-ctx.Done()];
                            [StartOf]: spawned, [srv.Start()] not entered;
                            [Watch]: in the [select] *)
| Calling                (* inside [srv.Stop()] or [srv.Start()] *)
| Finished (r : option error). (* returned [r] to the group *)

Record task := { what : job; at_phase : phase }.

(** Where the goroutine that called [Run] is. *)
Inductive main_pc :=
| NotRunning                   (* [Run] has not been called *)
| Spawning (k : nat)           (* in the loop over the servers, at index [k] *)
| Registering                  (* before [if a.opts.registry != nil] *)
| Notifying                    (* before [c := make(chan os.Signal, 1)] *)
| Waiting                      (* in [g.Wait()] *)
| Returned (r : option error). (* [Run] returned [r] *)

(** The [App] object, the [errgroup.Group] [g] with its context [ctx],
    the signal channel [c] and the goroutines of [Run]. *)
Record state := {
  app : App;
  pc : main_pc;
  g_ctx : option error;          (* [ctx.Err()] of the group's context *)
  g_err : option error;          (* [g.err], written once under [g.errOnce] *)
  tasks : list task;             (* the functions handed to [g.Go] *)
  notified : option (list Signal); (* the arguments of [signal.Notify] *)
  c : option Signal;             (* the channel, of capacity 1 *)
  history : list event;
}.

#[global] Instance ServiceInstance_eq_dec : EqDecision ServiceInstance.
Proof. solve_decision. Defined.
#[global] Instance event_eq_dec : EqDecision event.
Proof. solve_decision. Defined.
#[global] Instance job_eq_dec : EqDecision job.
Proof. solve_decision. Defined.
#[global] Instance phase_eq_dec : EqDecision phase.
Proof. solve_decision. Defined.
#[global] Instance main_pc_eq_dec : EqDecision main_pc.
Proof. solve_decision. Defined.

Definition with_app (a : App) (s : state) : state :=
  {| app := a; pc := pc s; g_ctx := g_ctx s; g_err := g_err s;
     tasks := tasks s; notified := notified s; c := c s;
     history := history s |}.
Definition with_pc (p : main_pc) (s : state) : state :=
  {| app := app s; pc := p; g_ctx := g_ctx s; g_err := g_err s;
     tasks := tasks s; notified := notified s; c := c s;
     history := history s |}.
Definition with_g_ctx (e : option error) (s : state) : state :=
  {| app := app s; pc := pc s; g_ctx := e; g_err := g_err s;
     tasks := tasks s; notified := notified s; c := c s;
     history := history s |}.
Definition with_g_err (e : option error) (s : state) : state :=
  {| app := app s; pc := pc s; g_ctx := g_ctx s; g_err := e;
     tasks := tasks s; notified := notified s; c := c s;
     history := history s |}.
Definition with_tasks (ts : list task) (s : state) : state :=
  {| app := app s; pc := pc s; g_ctx := g_ctx s; g_err := g_err s;
     tasks := ts; notified := notified s; c := c s;
     history := history s |}.
Definition with_notified (n : option (list Signal)) (s : state) : state :=
  {| app := app s; pc := pc s; g_ctx := g_ctx s; g_err := g_err s;
     tasks := tasks s; notified := n; c := c s;
     history := history s |}.
Definition with_c (v : option Signal) (s : state) : state :=
  {| app := app s; pc := pc s; g_ctx := g_ctx s; g_err := g_err s;
     tasks := tasks s; notified := notified s; c := v;
     history := history s |}.
Definition emit (ev : event) (s : state) : state :=
  {| app := app s; pc := pc s; g_ctx := g_ctx s; g_err := g_err s;
     tasks := tasks s; notified := notified s; c := c s;
     history := history s ++ [ev] |}.

(** The state right after [New] returned [a]. *)
Definition init (a : App) : state :=
  {| app := a; pc := NotRunning; g_ctx := None; g_err := None;
     tasks := []; notified := None; c := None; history := [] |}.

(** *** Contexts *)

(** A context is done at most once: finishing a context that is done
    keeps the first error. *)
Definition finish (e : error) (c : option error) : option error :=
  match c with
  | None => Some e
  | Some e0 => Some e0
  end.

Definition set_app_ctx (e : option error) (a : App) : App :=
  {| opts := opts a; app_ctx := e; cancel := cancel a;
     instance := instance a; log := log a |}.

(** [a.ctx] becomes done with [e], and with it the context of the group,
    which [Run] derives from [a.ctx].  Before [Run] there is no group. *)
Definition finish_app_ctx (e : error) (s : state) : state :=
  let s := with_app (set_app_ctx (finish e (app_ctx (app s))) (app s)) s in
  match pc s with
  | NotRunning => s
  | _ => with_g_ctx (finish e (g_ctx s)) s
  end.

(** *** Stop *)

(** [a.Stop()].  [dereg] is what [Deregister] returns if it is called. *)
Definition Stop (dereg : option error) (s : state) : option error * state :=
  let fire s :=
    if cancel (app s)
    then finish_app_ctx Canceled (emit EvCancel s)
    else s in
  match registry (opts (app s)) with
  | Some _ =>
      let s := emit (EvDeregister (instance (app s)) dereg) s in
      match dereg with
      | Some err => (Some err, s)
      | None => (None, fire s)
      end
  | None => (None, fire s)
  end.

(** *** The group *)

(** The package errgroup of golang.org/x/sync is imported by app.go and is
    not part of src/.  [Run] uses [WithContext], [Go] and [Wait]; they are
    embedded after that package: [WithContext] derives the group's context
    from its argument, the wrapper of [Go] stores the first non-nil error a
    function returns in [g.err] and cancels the group's context, and
    [Wait] waits for all functions, cancels the context and returns
    [g.err].  [group_done] is the wrapper of [Go], entered when a function
    returned [r]. *)
Definition group_done (r : option error) (s : state) : state :=
  match r, g_err s with
  | Some err, None =>
      with_g_ctx (finish Canceled (g_ctx s)) (with_g_err (Some err) s)
  | _, _ => s
  end.

Definition go (j : job) (s : state) : state :=
  with_tasks (tasks s ++ [{| what := j; at_phase := Pending |}]) s.

Definition is_finished (t : task) : bool :=
  match at_phase t with Finished _ => true | _ => false end.

(** *** Run *)

(** [signal.Notify(c, sgs...)] relays the listed signals, all signals if
    none is listed. *)
Definition relayed (sgs : list Signal) (sg : Signal) : bool :=
  match sgs with
  | [] => true
  | _ => bool_decide (sg ∈ sgs)
  end.

(** The end of [Run]:
    [if err := g.Wait(); err != nil && !errors.Is(err, context.Canceled)
     { return err }; return nil], where [g.Wait()] returned [err]. *)
Definition after_Wait (err : option error) : option error :=
  match err with
  | Some err => if negb (errors_Is err Canceled) then Some err else None
  | None => None
  end.

(** One move of the goroutine that called [Run]; [r] is what [Register]
    returns if this move calls it.  [None]: the goroutine is blocked (or
    has returned). *)
Definition main_step (r : option error) (s : state) : option state :=
  let a := app s in
  match pc s with
  | NotRunning =>
      let s := emit (EvInfow [("service_id", id (opts a));
                              ("service_name", name (opts a));
                              ("version", version (opts a))]) s in
      (* g, ctx := errgroup.WithContext(a.ctx) *)
      Some (with_pc (Spawning 0)
              (with_tasks [] (with_g_err None (with_g_ctx (app_ctx a) s))))
  | Spawning k =>
      match servers (opts a) !! k with
      | Some _ => Some (with_pc (Spawning (S k)) (go (StartOf k) (go (StopOf k) s)))
      | None => Some (with_pc Registering s)
      end
  | Registering =>
      match registry (opts a) with
      | Some _ =>
          let s := emit (EvRegister (instance a) r) s in
          match r with
          | Some err => Some (with_pc (Returned (Some err)) s)
          | None => Some (with_pc Notifying s)
          end
      | None => Some (with_pc Notifying s)
      end
  | Notifying =>
      let s := emit (EvNotify (sigs (opts a)))
                 (with_notified (Some (sigs (opts a))) (with_c None s)) in
      Some (with_pc Waiting (go Watch s))
  | Waiting =>
      if forallb is_finished (tasks s)
      then
        (* g.Wait(): g.cancel(); return g.err *)
        let s := with_g_ctx (finish Canceled (g_ctx s)) s in
        Some (with_pc (Returned (after_Wait (g_err s))) s)
      else None
  | Returned _ => None
  end.

(** One move of task number [i] of the group, which is [t], up to its
    next blocking point; [r] is what the call returns that returns in
    this move.  For the signal loop, this is the case [<-ctx.Done()] of
    its [select]; the case [<-c] is the move [Recv] of [step]. *)
Definition task_step (i : nat) (t : task) (r : option error) (s : state)
    : option state :=
  let become p s :=
    with_tasks (<[i := {| what := what t; at_phase := p |}]> (tasks s)) s in
  match what t, at_phase t with
  | StopOf k, Pending =>
      match g_ctx s with
      | Some _ => Some (become Calling (emit (EvStopCall k) s))
      | None => None
      end
  | StopOf k, Calling =>
      Some (group_done r (become (Finished r) (emit (EvStopReturn k r) s)))
  | StartOf k, Pending =>
      Some (become Calling (emit (EvStartCall k) s))
  | StartOf k, Calling =>
      Some (group_done r (become (Finished r) (emit (EvStartReturn k r) s)))
  | Watch, Pending =>
      match g_ctx s with
      | Some err =>
          let r := Some err in        (* return ctx.Err() *)
          Some (group_done r (become (Finished r) (emit (EvWatcherReturn r) s)))
      | None => None
      end
  | Watch, Calling => None
  | _, Finished _ => None
  end.

(** The moves of an execution. *)
Inductive action :=
| Main (r : option error)            (* the goroutine of [Run] moves *)
| Sched (i : nat) (r : option error) (* task [i] of the group moves *)
| Recv (i : nat) (r : option error)  (* the signal loop, task [i], takes
                                        [case <-c] and calls [a.Stop()],
                                        whose [Deregister] returns [r] *)
| Deliver (sg : Signal)              (* the OS delivers [sg] to the process *)
| CallStop (r : option error)        (* another goroutine calls [a.Stop()] *)
| BaseDone (e : error).              (* the context given to [New] is done *)

(** One move.  [None]: the move is not possible in [s].  A signal is a
    move of this program once [signal.Notify] relays it to [c]; what the
    Go runtime does with other signals is not part of app.go. *)
Definition step (act : action) (s : state) : option state :=
  match act with
  | Main r => main_step r s
  | Sched i r =>
      match tasks s !! i with
      | Some t => task_step i t r s
      | None => None
      end
  | Recv i r =>
      match tasks s !! i, c s with
      | Some {| what := Watch; at_phase := Pending |}, Some _ =>
          (* case <-c: a.Stop(); the result of Stop is dropped *)
          Some (Stop r (with_c None s)).2
      | _, _ => None
      end
  | Deliver sg =>
      match notified s with
      | Some sgs =>
          if relayed sgs sg
          then match c s with
               | None => Some (with_c (Some sg) s)
               | Some _ => Some s       (* channel full: the signal is dropped *)
               end
          else None
      | None => None
      end
  | CallStop r => Some (Stop r s).2
  | BaseDone e =>
      match ctx (opts (app s)) with
      | Supplied None =>
          let a := app s in
          let a := {| opts := set_ctx (Supplied (Some e)) (opts a);
                      app_ctx := app_ctx a; cancel := cancel a;
                      instance := instance a; log := log a |} in
          Some (finish_app_ctx e (with_app a s))
      | _ => None
      end
  end.

(** An execution: a sequence of moves. *)
Fixpoint exec (acts : list action) (s : state) : option state :=
  match acts with
  | [] => Some s
  | act :: rest =>
      match step act s with
      | Some s' => exec rest s'
      | None => None
      end
  end.

(** * Notions used in the statements *)

(** The endpoint list as the specification words it.  [answered srv] is
    the endpoint of a handle that answered without error. *)
Definition answered (srv : Server) : option string :=
  match (Endpoint srv).2 with
  | None => Some (Endpoint srv).1
  | Some _ => None
  end.

(** The results of the handles that answered, in the order of the handles. *)
Definition successful_endpoints (srvs : list Server) : list string :=
  omap answered srvs.

(** An option that leaves the identifier (the signal set) as it is. *)
Definition keeps_id (f : Option) : Prop := ∀ o, id (f o) = id o.
Definition keeps_sigs (f : Option) : Prop := ∀ o, sigs (f o) = sigs o.

(** What no move changes: the instance, the [cancel] field and every
    option but the base context. *)
Definition same_config (a : App) (s : state) : Prop :=
  instance (app s) = instance a ∧
  cancel (app s) = cancel a ∧
  servers (opts (app s)) = servers (opts a) ∧
  registry (opts (app s)) = registry (opts a) ∧
  sigs (opts (app s)) = sigs (opts a).

(** [n] calls of [Stop] in a row, each with a successful [Deregister]
    (if there is a registry): the results and the final state. *)
Fixpoint Stop_repeatedly (n : nat) (s : state) : list (option error) * state :=
  match n with
  | 0 => ([], s)
  | S n =>
      let '(r, s1) := Stop None s in
      let '(rs, s2) := Stop_repeatedly n s1 in
      (r :: rs, s2)
  end.

(** Once [Run] has started, the context of the group is done whenever
    [a.ctx] is, and whenever [g.err] is set. *)
Definition ctx_linked (s : state) : Prop :=
  (pc s ≠ NotRunning → is_Some (app_ctx (app s)) → is_Some (g_ctx s)) ∧
  (pc s ≠ NotRunning → is_Some (g_err s) → is_Some (g_ctx s)).

(** The instances handed to the registry. *)
Definition registry_arg (ev : event) : option ServiceInstance :=
  match ev with
  | EvRegister inst _ | EvDeregister inst _ => Some inst
  | _ => None
  end.

(** The instance of the [App] is the one of [a], and so is every instance
    the registry has received. *)
Definition instance_kept (a : App) (s : state) : Prop :=
  instance (app s) = instance a ∧
  Forall (λ ev, ∀ inst, registry_arg ev = Some inst → inst = instance a)
         (history s).

(** [signal.Notify] was called with [a.opts.sigs]. *)
Definition notified_sigs (s : state) : Prop :=
  ∀ sgs, notified s = Some sgs → sgs = sigs (opts (app s)).

(** The signal loop as [Run] hands it to [g.Go]. *)
Definition watcher : task := {| what := Watch; at_phase := Pending |}.

(** What a task returned to the group, for the events that are returns of
    tasks. *)
Definition outcome (ev : event) : option error :=
  match ev with
  | EvStartReturn _ r | EvStopReturn _ r | EvWatcherReturn r => r
  | _ => None
  end.

(** The first non-nil error a task returned. *)
Fixpoint first_failure (h : list event) : option error :=
  match h with
  | [] => None
  | ev :: h =>
      match outcome ev with
      | Some e => Some e
      | None => first_failure h
      end
  end.

(** [g.err] is the first non-nil error a task returned. *)
Definition group_inv (s : state) : Prop :=
  (pc s = NotRunning → tasks s = [] ∧ g_err s = None) ∧
  g_err s = first_failure (history s).

(** How many servers the loop of [Run] has spawned tasks for. *)
Definition spawned_upto (s : state) : nat :=
  match pc s with
  | NotRunning => 0
  | Spawning k => k
  | _ => length (servers (opts (app s)))
  end.

(** Every server the loop has passed has a stop task in the group, and a
    stop task that has left [<-ctx.Done()] has called [srv.Stop()]. *)
Definition stops_inv (s : state) : Prop :=
  (∀ j, j < spawned_upto s → StopOf j ∈ what <$> tasks s) ∧
  Forall (λ t, ∀ j, what t = StopOf j → at_phase t ≠ Pending →
                    EvStopCall j ∈ history s) (tasks s).

(** The first event in which a task returned a non-nil error. *)
Fixpoint first_failed (h : list event) : option event :=
  match h with
  | [] => None
  | ev :: h =>
      match outcome ev with
      | Some _ => Some ev
      | None => first_failed h
      end
  end.

(** [ev] is the return of [Start()] or of [Stop()] of server [k] with the
    error [E]. *)
Definition server_failure (k : nat) (E : error) (ev : event) : Prop :=
  ev = EvStartReturn k (Some E) ∨ ev = EvStopReturn k (Some E).

(** The signal loop is never inside a server call. *)
Definition well_phased (t : task) : Prop :=
  what t = Watch → at_phase t ≠ Calling.

(** This holds of every task of the group. *)
Definition tasks_well_phased (s : state) : Prop := Forall well_phased (tasks s).

(** The moves that let task [i], which is [t], return, with nil from
    the server. *)
Definition finish_moves (i : nat) (t : task) : list action :=
  match at_phase t, what t with
  | Pending, Watch => [Sched i None]
  | Pending, _ => [Sched i None; Sched i None]
  | Calling, _ => [Sched i None]
  | Finished _, _ => []
  end.

(** The moves that let the tasks [ts], which are the tasks from index
    [i] on, return one after the other. *)
Fixpoint drain (i : nat) (ts : list task) : list action :=
  match ts with
  | [] => []
  | t :: ts => finish_moves i t ++ drain (S i) ts
  end.

(** Once [Run] is in [g.Wait()], it stays there until it returns. *)
Definition past_spawning (s : state) : Prop :=
  pc s = Waiting ∨ ∃ r, pc s = Returned r.

(** The first error of a server's [Start()] or [Stop()] that is not the
    cancellation error, with the index of the server. *)
Fixpoint first_server_failure (h : list event) : option (nat * error) :=
  match h with
  | [] => None
  | ev :: h =>
      match ev with
      | EvStartReturn k (Some E) | EvStopReturn k (Some E) =>
          if errors_Is E Canceled then first_server_failure h else Some (k, E)
      | _ => first_server_failure h
      end
  end.

(** Fail fast as the specification states it, for every execution in
    which [Run] has returned: the context of the group is done, [Stop()]
    of every other server has been called and [Run] has returned the
    first failure of a server. *)
Definition fail_fast_as_stated : Prop :=
  ∀ (a : App) (acts : list action) (s : state) (r : option error)
    (k : nat) (E : error),
    exec acts (init a) = Some s →
    pc s = Returned r →
    first_server_failure (history s) = Some (k, E) →
    is_Some (g_ctx s) ∧
    (∀ j, j < length (servers (opts a)) → j ≠ k → EvStopCall j ∈ history s) ∧
    r = Some E.

(** * Scenarios *)

Definition http : Server := {| Endpoint := ("http://127.0.0.1:8000", None) |}.
Definition grpc : Server := {| Endpoint := ("grpc://127.0.0.1:9000", None) |}.

Definition uuid_ok : string * option error := ("0f0e1a52", None).

(** Two servers, no registry. *)
Definition opts_two : list Option :=
  [option_of (OptName "helloworld"); option_of (OptServer [http; grpc])].
Definition app_two : App := New uuid_ok opts_two.

(** Two servers and a registry. *)
Definition opts_registry : list Option :=
  [option_of (OptName "helloworld"); option_of (OptServer [http; grpc]);
   option_of (OptRegistry (RegistryHandle "etcd"))].
Definition app_registry : App := New uuid_ok opts_registry.

(** The state the moves [acts] lead to from the state after [New]. *)
Definition run_to (acts : list action) (a : App) : state :=
  default (init a) (exec acts (init a)).

(** [Run] with two servers, up to [Register]: start, two rounds of the
    loop, end of the loop. *)
Definition to_Register : list action :=
  [Main None; Main None; Main None; Main None].

(** [Run] up to [g.Wait()]: [Register] (if any) succeeds, the signal loop
    is spawned.  The tasks are then 0: stop of server 0, 1: start of
    server 0, 2: stop of server 1, 3: start of server 1, 4: the signal
    loop. *)
Definition to_Wait : list action := to_Register ++ [Main None; Main None].

Definition listen_failed : error := ErrNew "listen tcp :9000: address already in use".
Definition close_failed : error := ErrNew "http: close: timeout".
Definition etcd_down : error := ErrNew "etcd: connection refused".

(** Scenario A of the specification: [Start()] of server 1 fails at
    once; the group's context is done, the servers are stopped, a later
    error of a [Stop()] is dropped. *)
Definition failed_start : list action :=
  to_Wait ++ [Sched 3 None; Sched 3 (Some listen_failed)].
Definition stops_follow : list action :=
  [Sched 1 None;
   Sched 0 None; Sched 2 None; Sched 4 None;
   Sched 0 None; Sched 2 (Some close_failed); Sched 1 None].
Definition start_fails : list action := failed_start ++ stops_follow.

(** A signal ends the service; the signal loop returns first, then
    [Stop()] of server 0 fails. *)
Definition stop_fails_after_signal : list action :=
  to_Wait ++
  [Sched 1 None; Sched 3 None;
   Deliver SIGTERM; Recv 4 None; Sched 4 None;
   Sched 0 None; Sched 2 None;
   Sched 0 (Some close_failed); Sched 2 None;
   Sched 1 None; Sched 3 None].

(** [Start()] of server 1 fails while [Run] is on its way to [Register],
    which fails as well. *)
Definition register_fails : list action :=
  to_Register ++
  [Sched 3 None; Sched 3 (Some listen_failed); Main (Some etcd_down)].

(** * Further notions *)

(** [a.Logger()], [a.Server()], [a.Registry()]. *)
Definition App_Logger (a : App) : Logger := logger (opts a).
Definition App_Server (a : App) : list Server := servers (opts a).
Definition App_Registry (a : App) : option Registry := registry (opts a).

(** Everything of the options but the state of the base context. *)
Definition static_opts (a : App) (s : state) : Prop :=
  set_ctx Background (opts (app s)) = set_ctx Background (opts a) ∧
  log (app s) = log a.

(** Once [Run] has started, what is set stays set. *)
Definition latched (e1 e2 e3 : option error) (r : option (option error))
    (s : state) : Prop :=
  pc s ≠ NotRunning ∧
  (∀ e, e1 = Some e → app_ctx (app s) = Some e) ∧
  (∀ e, e2 = Some e → g_ctx s = Some e) ∧
  (∀ e, e3 = Some e → g_err s = Some e) ∧
  (∀ x, r = Some x → pc s = Returned x).

(** How often an event with the property [p] has happened. *)
Definition times (p : event → bool) (h : list event) : nat :=
  length (filter (λ ev, p ev = true) h).

(** Kinds of events. *)
Definition is_registry_call (ev : event) : bool :=
  match ev with EvRegister _ _ | EvDeregister _ _ => true | _ => false end.
Definition is_register (ev : event) : bool :=
  match ev with EvRegister _ _ => true | _ => false end.
Definition is_infow (ev : event) : bool :=
  match ev with EvInfow _ => true | _ => false end.
Definition is_stop_call (ev : event) : bool :=
  match ev with EvStopCall _ => true | _ => false end.

(** The registry is called only if one is configured; [Register] is
    called once, between the loop over the servers and [signal.Notify]. *)
Definition registry_inv (a : App) (s : state) : Prop :=
  (registry (opts a) = None → times is_registry_call (history s) = 0%nat) ∧
  match pc s with
  | NotRunning | Spawning _ | Registering =>
      times is_register (history s) = 0%nat ∧ notified s = None
  | Notifying =>
      (is_Some (registry (opts a)) →
       EvRegister (instance a) None ∈ history s) ∧
      (times is_register (history s) ≤ 1)%nat ∧ notified s = None
  | _ =>
      (is_Some (notified s) → is_Some (registry (opts a)) →
       EvRegister (instance a) None ∈ history s) ∧
      (times is_register (history s) ≤ 1)%nat
  end.

(** The line [Run] logs: identifier, name and version of the options. *)
Definition startup_line (a : App) : event :=
  EvInfow [("service_id", id (opts a)); ("service_name", name (opts a));
           ("version", version (opts a))].

(** What a call of [Stop] leaves in the history. *)
Definition is_stop_event (ev : event) : bool :=
  match ev with EvDeregister _ _ | EvCancel => true | _ => false end.

(** Before [Run] the history holds calls of [Stop] only; [Run] logs its
    line first, and once. *)
Definition infow_inv (a : App) (s : state) : Prop :=
  match pc s with
  | NotRunning => Forall (λ ev, is_stop_event ev = true) (history s)
  | _ => ∃ pre post, history s = pre ++ startup_line a :: post ∧
                     Forall (λ ev, is_stop_event ev = true) pre ∧
                     times is_infow post = 0%nat
  end.

(** While the context of the group is live, no server has been stopped. *)
Definition stop_after_cancel (s : state) : Prop :=
  pc s = NotRunning ∨ g_ctx s = None → times is_stop_call (history s) = 0%nat.

(** The tasks [Run] spawns for the first [k] servers, in order. *)
Definition jobs (k : nat) : list job := seq 0 k ≫= λ j, [StopOf j; StartOf j].

(** The signal loop, if [signal.Notify] has been called. *)
Definition watch_if (n : option (list Signal)) : list job :=
  match n with Some _ => [Watch] | None => [] end.

(** The group holds the stop task and the start task of every server the
    loop has passed, in the order of the servers, and then the signal
    loop, once [signal.Notify] has been called. *)
Definition group_shape (s : state) : Prop :=
  what <$> tasks s
  = jobs (spawned_upto s) ++ watch_if (notified s) ∧
  match pc s with
  | NotRunning | Registering | Notifying => notified s = None
  | Spawning k => notified s = None ∧ (k ≤ length (servers (opts (app s))))%nat
  | Waiting => is_Some (notified s)
  | Returned _ => True
  end.

(** The events of a task: entering the server call, and returning. *)
Definition call_event (w : job) : option event :=
  match w with
  | StopOf j => Some (EvStopCall j)
  | StartOf j => Some (EvStartCall j)
  | Watch => None
  end.

Definition return_event (w : job) (r : option error) : event :=
  match w with
  | StopOf j => EvStopReturn j r
  | StartOf j => EvStartReturn j r
  | Watch => EvWatcherReturn r
  end.

(** The event [ev]. *)
Definition is_event (ev : event) (x : event) : bool := bool_decide (x = ev).

(** Task [t] runs the function [w] and has entered its server call. *)
Definition has_called (w : job) (t : task) : Prop :=
  what t = w ∧ at_phase t ≠ Pending.

#[global] Instance has_called_dec w t : Decision (has_called w t).
Proof. unfold has_called. apply _. Defined.

(** A call event is in the history as often as there are tasks that have
    made the call; a task that has returned has left its return event. *)
Definition calls_inv (s : state) : Prop :=
  (∀ w ev, call_event w = Some ev →
     times (is_event ev) (history s) = length (filter (has_called w) (tasks s))) ∧
  Forall (λ t, ∀ r, at_phase t = Finished r →
                    return_event (what t) r ∈ history s ∧
                    (what t = Watch → is_Some r)) (tasks s).

(** The signal loop, still in its [select]. *)
Definition is_pending_watch (t : task) : bool :=
  match what t, at_phase t with
  | Watch, Pending => true
  | _, _ => false
  end.

(** [g.err] after the tasks [ts] have returned, the servers with nil and
    the signal loop with the error [e] of the context, when it was [ge]
    before. *)
Definition quiet_err (e : error) (ge : option error) (ts : list task)
    : option error :=
  match ge with
  | Some x => Some x
  | None => if existsb is_pending_watch ts then Some e else None
  end.

(** A caller's context with a deadline. *)
Definition opts_deadline : list Option :=
  opts_two ++ [option_of (OptContext (Supplied None))].
Definition app_deadline : App := New uuid_ok opts_deadline.
Definition deadline_passes : list action := to_Wait ++ [BaseDone DeadlineExceeded].

(** * Properties *)

(** ** Construction: [New] and [serviceInstance] *)

Lemma collect_endpoints_spec srvs : ∀ k eps calls,
  collect_endpoints k srvs eps calls
  = (eps ++ successful_endpoints srvs, calls ++ seq k (length srvs)).
Proof.
  induction srvs as [|[[e err]] rest IH]; intros k eps calls.
  - simpl. by rewrite !app_nil_r.
  - unfold successful_endpoints, answered. simpl.
    destruct err as [x|]; rewrite IH; simpl.
    + by rewrite <- (assoc_L (++)).
    + by rewrite <- !(assoc_L (++)).
Qed.

Lemma serviceInstance_fields o :
  ID (serviceInstance o).1 = id o ∧
  Name (serviceInstance o).1 = name o ∧
  Version (serviceInstance o).1 = version o ∧
  Metadata (serviceInstance o).1 = metadata o.
Proof.
  unfold serviceInstance. by repeat case_match.
Qed.

Lemma serviceInstance_derived o :
  endpoints o = [] →
  Endpoints (serviceInstance o).1 = successful_endpoints (servers o) ∧
  (serviceInstance o).2 = seq 0 (length (servers o)).
Proof.
  intros Hnil. unfold serviceInstance. rewrite Hnil. simpl.
  by rewrite collect_endpoints_spec.
Qed.

Lemma serviceInstance_explicit o :
  endpoints o ≠ [] →
  Endpoints (serviceInstance o).1 = endpoints o ∧ (serviceInstance o).2 = [].
Proof.
  intros Hne. unfold serviceInstance.
  destruct (endpoints o) as [|e eps] eqn:He; [done|]. by rewrite decide_False.
Qed.

(** C3.  [New] builds the instance from its final options [o].  If [o]
    has no explicit endpoints, the instance's endpoints are the results of
    the server handles whose [Endpoint()] returned no error, in the order
    of [o.servers], and every handle is asked exactly once; a handle that
    returns an error contributes nothing.  If [o] has explicit endpoints,
    they are used as they are and no handle is asked. *)
Theorem New_instance_endpoints (uuid : string * option error) (os : list Option) :
  instance (New uuid os) = (serviceInstance (opts (New uuid os))).1 ∧
  (endpoints (opts (New uuid os)) = [] →
     Endpoints (instance (New uuid os))
     = successful_endpoints (servers (opts (New uuid os))) ∧
     (serviceInstance (opts (New uuid os))).2
     = seq 0 (length (servers (opts (New uuid os))))) ∧
  (endpoints (opts (New uuid os)) ≠ [] →
     Endpoints (instance (New uuid os)) = endpoints (opts (New uuid os)) ∧
     (serviceInstance (opts (New uuid os))).2 = []).
Proof.
  split; [done|]. split; intros H.
  - by apply serviceInstance_derived.
  - by apply serviceInstance_explicit.
Qed.

Lemma New_instance_endpoints_witness :
  Endpoints (instance (New ("u", None)
    [option_of (OptServer [ {| Endpoint := ("grpc://a:9000", None) |};
                            {| Endpoint := ("", Some (ErrNew "no listener")) |};
                            {| Endpoint := ("http://a:8000", None) |} ])]))
  = ["grpc://a:9000"; "http://a:8000"] ∧
  Endpoints (instance (New ("u", None)
    [option_of (OptServer [ {| Endpoint := ("grpc://a:9000", None) |} ]);
     option_of (OptEndpoint ["http://public:80"])]))
  = ["http://public:80"].
Proof.
  split.
  - apply (New_instance_endpoints ("u", None)
      [option_of (OptServer [ {| Endpoint := ("grpc://a:9000", None) |};
                              {| Endpoint := ("", Some (ErrNew "no listener")) |};
                              {| Endpoint := ("http://a:8000", None) |} ])]).
    reflexivity.
  - apply (New_instance_endpoints ("u", None)
      [option_of (OptServer [ {| Endpoint := ("grpc://a:9000", None) |} ]);
       option_of (OptEndpoint ["http://public:80"])]).
    discriminate.
Defined.

Lemma foldl_keeps {A} (proj : options → A) (os : list Option) :
  Forall (λ f, ∀ o, proj (f o) = proj o) os →
  ∀ o, proj (foldl (λ o f, f o) o os) = proj o.
Proof.
  induction 1 as [|f os Hf _ IH]; intros o; [done|].
  simpl. by rewrite IH, Hf.
Qed.

(** Of the recognised options, only the identity override writes [id] and
    only the signal set writes [sigs]. *)
Lemma option_of_keeps_id n : (∀ v, n ≠ OptID v) → keeps_id (option_of n).
Proof. intros Hn o. destruct n; try done. by destruct (Hn v). Qed.

Lemma option_of_keeps_sigs n : (∀ v, n ≠ OptSignal v) → keeps_sigs (option_of n).
Proof. intros Hn o. destruct n; try done. by destruct (Hn v). Qed.

(** C10.  If [uuid.NewUUID()] returns an error and no option writes the
    identifier, [New] still returns an [App]; its options and its
    instance have the empty string as identifier.  ([New] is a total
    function into [App]: it has no error result.) *)
Theorem New_uuid_failure (uuid : string * option error) (os : list Option) (err : error) :
  uuid.2 = Some err →
  Forall keeps_id os →
  id (opts (New uuid os)) = "" ∧ ID (instance (New uuid os)) = "".
Proof.
  intros Hu Hos.
  assert (id (opts (New uuid os)) = "") as Hid.
  { unfold New. simpl. rewrite Hu. by rewrite (foldl_keeps id os Hos). }
  split; [done|].
  rewrite <- Hid. apply serviceInstance_fields.
Qed.

Lemma New_uuid_failure_witness :
  id (opts (New ("", Some (ErrNew "clock sequence"))
              [option_of (OptName "helloworld"); option_of (OptVersion "v1")])) = "" ∧
  ID (instance (New ("", Some (ErrNew "clock sequence"))
              [option_of (OptName "helloworld"); option_of (OptVersion "v1")])) = "".
Proof.
  apply (New_uuid_failure _ _ (ErrNew "clock sequence")); [reflexivity|].
  repeat constructor; by apply option_of_keeps_id.
Defined.

(** ** Executions *)

Lemma exec_app acts1 acts2 s :
  exec (acts1 ++ acts2) s = exec acts1 s ≫= exec acts2.
Proof.
  revert s. induction acts1 as [|act acts1 IH]; intros s; simpl; [done|].
  destruct (step act s); simpl; [apply IH|done].
Qed.

(** A property of states that every move keeps holds along executions. *)
Lemma exec_invariant (P : state → Prop) :
  (∀ act s s', P s → step act s = Some s' → P s') →
  ∀ acts s s', P s → exec acts s = Some s' → P s'.
Proof.
  intros Hstep acts. induction acts as [|act acts IH]; intros s s' HP Hexec;
    simpl in Hexec.
  - by simplify_eq.
  - destruct (step act s) as [s1|] eqn:Hs; [|done]. eauto.
Qed.

(** Case analysis on a move. *)
Ltac step_cases H :=
  unfold step, main_step, task_step, Stop, group_done, finish_app_ctx, go,
    after_Wait in H;
  repeat case_match; simplify_eq; simpl in *.

Lemma step_same_config a act s s' :
  same_config a s → step act s = Some s' → same_config a s'.
Proof.
  unfold same_config. intros H Hstep.
  step_cases Hstep; destruct H as (?&?&?&?&?); repeat split; congruence.
Qed.

Lemma exec_same_config a acts s :
  exec acts (init a) = Some s → same_config a s.
Proof.
  apply (exec_invariant (same_config a)); [apply step_same_config|done].
Qed.

(** ** Stop *)

Lemma finish_is_Some e c : is_Some (finish e c).
Proof. by destruct c. Qed.

Lemma Stop_deregister_failed s reg err :
  registry (opts (app s)) = Some reg →
  Stop (Some err) s
  = (Some err, emit (EvDeregister (instance (app s)) (Some err)) s).
Proof. intros Hreg. unfold Stop. by rewrite Hreg. Qed.

Lemma Stop_fires s dereg :
  registry (opts (app s)) = None ∨ dereg = None →
  cancel (app s) = true →
  (Stop dereg s).1 = None ∧
  app_ctx (app (Stop dereg s).2) = finish Canceled (app_ctx (app s)) ∧
  (pc s ≠ NotRunning → g_ctx (Stop dereg s).2 = finish Canceled (g_ctx s)) ∧
  last (history (Stop dereg s).2) = Some EvCancel.
Proof.
  intros Hor Hc. unfold Stop, finish_app_ctx.
  destruct (registry (opts (app s))) as [reg|] eqn:Hreg.
  - destruct Hor as [?| ->]; [done|]. simpl. rewrite Hc. simpl.
    destruct (pc s); simpl; by rewrite last_snoc.
  - simpl. rewrite Hc. simpl. destruct (pc s); simpl; by rewrite last_snoc.
Qed.

Lemma New_cancel uuid os acts s :
  exec acts (init (New uuid os)) = Some s → cancel (app s) = true.
Proof.
  intros Hexec. by destruct (exec_same_config _ _ _ Hexec) as (_ & -> & _).
Qed.

(** C1.  For an [App] built by [New], in every state of an execution:
    with a registry configured, a failing [Deregister] makes [Stop]
    return that error, and [a.cancel] is not called: the [App], with its
    context, and the context of the group are as before and the only
    event is the call of [Deregister].  Without a registry, or when
    [Deregister] succeeds, [Stop] calls [a.cancel], after which [a.ctx]
    (and the context derived from it, once [Run] has started) is done, and
    returns nil. *)
Theorem Stop_deregister_gate (uuid : string * option error) (os : list Option)
    (acts : list action) (s : state) (dereg : option error) :
  exec acts (init (New uuid os)) = Some s →
  (∀ reg err,
     registry (opts (app s)) = Some reg → dereg = Some err →
     (Stop dereg s).1 = Some err ∧
     app (Stop dereg s).2 = app s ∧
     g_ctx (Stop dereg s).2 = g_ctx s ∧
     history (Stop dereg s).2
     = history s ++ [EvDeregister (instance (app s)) (Some err)]) ∧
  (registry (opts (app s)) = None ∨ dereg = None →
     (Stop dereg s).1 = None ∧
     is_Some (app_ctx (app (Stop dereg s).2)) ∧
     (pc s ≠ NotRunning → is_Some (g_ctx (Stop dereg s).2)) ∧
     last (history (Stop dereg s).2) = Some EvCancel).
Proof.
  intros Hexec. split.
  - intros reg err Hreg ->. by rewrite (Stop_deregister_failed s reg err Hreg).
  - intros Hor. pose proof (New_cancel _ _ _ _ Hexec) as Hc.
    destruct (Stop_fires s dereg Hor Hc) as (Hr & Ha & Hg & Hl).
    split; [done|]. split; [|split; [|done]].
    + rewrite Ha. apply finish_is_Some.
    + intros Hpc. rewrite (Hg Hpc). apply finish_is_Some.
Qed.

Lemma Stop_when_done s e :
  app_ctx (app s) = Some e →
  (pc s ≠ NotRunning → is_Some (g_ctx s)) →
  (Stop None s).1 = None ∧
  app (Stop None s).2 = app s ∧
  g_ctx (Stop None s).2 = g_ctx s ∧
  pc (Stop None s).2 = pc s.
Proof.
  intros Ha Hg. unfold Stop, finish_app_ctx. simpl.
  assert (set_app_ctx (finish Canceled (app_ctx (app s))) (app s) = app s) as Hsame.
  { rewrite Ha. simpl. destruct (app s); simpl in *. by subst. }
  assert (pc s ≠ NotRunning → finish Canceled (g_ctx s) = g_ctx s) as Hsame'.
  { intros Hpc. by destruct (Hg Hpc) as [e' ->]. }
  destruct (registry (opts (app s))), (cancel (app s)); simpl;
    rewrite ?Hsame; destruct (pc s) eqn:Hpc; simpl; rewrite ?Hsame'; done.
Qed.

Lemma Stop_repeatedly_when_done n : ∀ s e,
  app_ctx (app s) = Some e →
  (pc s ≠ NotRunning → is_Some (g_ctx s)) →
  Forall (λ r, r = None) (Stop_repeatedly n s).1 ∧
  app (Stop_repeatedly n s).2 = app s ∧
  g_ctx (Stop_repeatedly n s).2 = g_ctx s.
Proof.
  induction n as [|n IH]; intros s e Ha Hg; simpl; [done|].
  destruct (Stop_when_done s e Ha Hg) as (Hr & Happ & Hctx & Hpc).
  destruct (Stop None s) as [r s1]; simpl in *.
  destruct (IH s1 e) as (Hrs & Happ' & Hctx').
  { by rewrite Happ. }
  { by rewrite Hpc, Hctx. }
  destruct (Stop_repeatedly n s1) as [rs s2]; simpl in *.
  split; [by constructor|]. split; congruence.
Qed.

(** ** Run: the moves of its own goroutine *)

(** C2.  When [Run] calls [Register] (a registry is configured) and the
    call fails, that move is the return of [Run] with exactly that error.
    The move does not call [a.cancel] or the group's cancel: the [App],
    the context of the group, [g.err] and the tasks spawned for the
    servers are as before, and the only event is the call of
    [Register]. *)
Theorem Run_register_failure (s : state) (reg : Registry) (err : error) :
  pc s = Registering →
  registry (opts (app s)) = Some reg →
  ∃ s', step (Main (Some err)) s = Some s' ∧
        pc s' = Returned (Some err) ∧
        app s' = app s ∧ g_ctx s' = g_ctx s ∧ g_err s' = g_err s ∧
        tasks s' = tasks s ∧
        history s' = history s ++ [EvRegister (instance (app s)) (Some err)].
Proof.
  intros Hpc Hreg. simpl. unfold main_step. rewrite Hpc, Hreg.
  eexists. split; [done|]. done.
Qed.

(** C4.  When [Run] is in [g.Wait()] and all tasks have returned, its next
    move is its return.  It returns nil if [g.Wait()] yields nil or
    [context.Canceled]; and whenever it returns a non-nil error, that is
    the error [g.Wait()] yielded, which then is not [context.Canceled]
    (and does not wrap it). *)
Theorem Run_after_Wait (s : state) (r : option error) :
  pc s = Waiting →
  forallb is_finished (tasks s) = true →
  ∃ s', step (Main r) s = Some s' ∧
        pc s' = Returned (after_Wait (g_err s)) ∧
        (g_err s = None ∨ g_err s = Some Canceled → pc s' = Returned None) ∧
        (∀ err, pc s' = Returned (Some err) →
           g_err s = Some err ∧ err ≠ Canceled ∧ errors_Is err Canceled = false).
Proof.
  intros Hpc Hfin. simpl. unfold main_step. rewrite Hpc, Hfin. simpl.
  eexists. split; [done|]. simpl. split; [done|]. split.
  - by intros [-> | ->].
  - intros err Herr. assert (after_Wait (g_err s) = Some err) as Ha by congruence.
    unfold after_Wait in Ha. destruct (g_err s) as [e|]; [|done].
    destruct (errors_Is e Canceled) eqn:He; simpl in Ha; [done|].
    simplify_eq. split; [done|]. split; [|done].
    intros ->. by simpl in He.
Qed.

(** ** Invariants of executions *)

Lemma step_ctx_linked act s s' :
  ctx_linked s → step act s = Some s' → ctx_linked s'.
Proof.
  unfold ctx_linked. intros [H1 H2] Hstep.
  step_cases Hstep; split; intros Hpc Hsome;
    try done; try apply finish_is_Some; try (by apply H1); try (by apply H2);
    try (by apply H1; [congruence|]); try (by apply H2; [congruence|]).
Qed.

Lemma exec_ctx_linked a acts s :
  exec acts (init a) = Some s → ctx_linked s.
Proof.
  apply (exec_invariant ctx_linked); [apply step_ctx_linked|]. by split.
Qed.

(** C5.  In every state an execution of an [App] can reach in which
    [a.ctx] is done, any number of further calls of [Stop] (with
    [Deregister], if a registry is configured, succeeding) all return
    nil and leave the [App], with its context, and the context of the
    group as they are. *)
Theorem Stop_after_cancel_idempotent (a : App) (acts : list action)
    (s : state) (e : error) (n : nat) :
  exec acts (init a) = Some s →
  app_ctx (app s) = Some e →
  Forall (λ r, r = None) (Stop_repeatedly n s).1 ∧
  length (Stop_repeatedly n s).1 = n ∧
  app_ctx (app (Stop_repeatedly n s).2) = Some e ∧
  g_ctx (Stop_repeatedly n s).2 = g_ctx s.
Proof.
  intros Hexec Hdone.
  destruct (exec_ctx_linked a acts s Hexec) as [Hlink _].
  destruct (Stop_repeatedly_when_done n s e Hdone) as (Hrs & Happ & Hctx).
  { intros Hpc. apply Hlink; [done|]. by rewrite Hdone. }
  split; [done|]. split; [|split; [congruence|done]].
  clear. revert s. induction n as [|n IH]; intros s; simpl; [done|].
  destruct (Stop None s) as [r s1]. specialize (IH s1).
  destruct (Stop_repeatedly n s1) as [rs s2]. simpl in *. by rewrite IH.
Qed.

(** ** The instance is read only *)

Lemma step_instance_kept a act s s' :
  instance_kept a s → step act s = Some s' → instance_kept a s'.
Proof.
  unfold instance_kept. intros [Hi Hh] Hstep.
  step_cases Hstep; (split; [done|]);
    rewrite ?Forall_app, ?Forall_singleton; repeat split; try done;
    simpl; intros; congruence.
Qed.

(** C7.  Along every execution (the moves of [Run] and of its tasks,
    calls of [Stop] from the signal loop and from other goroutines) the
    instance of the [App] stays the record [New] built, field by field,
    and it is the record every [Register] and [Deregister] receives. *)
Theorem instance_never_mutated (a : App) (acts : list action) (s : state) :
  exec acts (init a) = Some s →
  (ID (instance (app s)) = ID (instance a) ∧
   Name (instance (app s)) = Name (instance a) ∧
   Version (instance (app s)) = Version (instance a) ∧
   Metadata (instance (app s)) = Metadata (instance a) ∧
   Endpoints (instance (app s)) = Endpoints (instance a)) ∧
  (∀ ev inst, ev ∈ history s → registry_arg ev = Some inst → inst = instance a).
Proof.
  intros Hexec.
  assert (instance_kept a s) as [Hi Hh].
  { revert Hexec. apply (exec_invariant (instance_kept a));
      [apply step_instance_kept|]. split; [done|constructor]. }
  split; [by rewrite Hi|].
  intros ev inst Hin. by apply (proj1 (Forall_forall _ _) Hh).
Qed.

(** ** The signal set *)

Lemma step_notified_sigs act s s' :
  notified_sigs s → step act s = Some s' → notified_sigs s'.
Proof.
  unfold notified_sigs. intros H Hstep sgs.
  step_cases Hstep; intros Hn; simplify_eq; try done; apply H; congruence.
Qed.

(** C9.  If no option given to [New] writes the signal set, the [App] has
    the signals SIGTERM, SIGQUIT and SIGINT, and along every execution
    these are the signals [Run] passes to [signal.Notify] for the channel
    of the signal loop; they are then the only signals relayed to it. *)
Theorem New_default_signals (uuid : string * option error) (os : list Option)
    (acts : list action) (s : state) (sgs : list Signal) :
  Forall keeps_sigs os →
  sigs (opts (New uuid os)) = [SIGTERM; SIGQUIT; SIGINT] ∧
  (exec acts (init (New uuid os)) = Some s →
   notified s = Some sgs →
   sgs = [SIGTERM; SIGQUIT; SIGINT] ∧
   ∀ sg, relayed sgs sg = true ↔ sg = SIGTERM ∨ sg = SIGQUIT ∨ sg = SIGINT).
Proof.
  intros Hos.
  assert (sigs (opts (New uuid os)) = [SIGTERM; SIGQUIT; SIGINT]) as Hsigs.
  { unfold New. simpl. rewrite (foldl_keeps sigs os Hos). by destruct (uuid.2). }
  split; [done|]. intros Hexec Hn.
  assert (sgs = [SIGTERM; SIGQUIT; SIGINT]) as ->.
  { destruct (exec_same_config _ _ _ Hexec) as (_ & _ & _ & _ & Hs).
    rewrite <- Hsigs, <- Hs. revert Hexec sgs Hn.
    apply (exec_invariant notified_sigs); [apply step_notified_sigs|done]. }
  split; [done|]. intros sg. unfold relayed.
  rewrite bool_decide_eq_true, !elem_of_cons, elem_of_nil. tauto.
Qed.

(** ** The signal loop *)

(** [Stop] does not touch the group's tasks and error, nor the channel. *)
Lemma Stop_frame r s :
  tasks (Stop r s).2 = tasks s ∧ g_err (Stop r s).2 = g_err s ∧
  c (Stop r s).2 = c s ∧ notified (Stop r s).2 = notified s.
Proof. unfold Stop, finish_app_ctx. by repeat case_match. Qed.

Lemma with_c_undo sg s : c s = None → with_c None (with_c (Some sg) s) = s.
Proof. destruct s. simpl. by intros ->. Qed.

(** A signal is delivered and taken by the loop, which calls [Stop]. *)
Lemma deliver_recv i sgs sg r s :
  tasks s !! i = Some watcher →
  notified s = Some sgs → relayed sgs sg = true → c s = None →
  exec [Deliver sg; Recv i r] s = Some (Stop r s).2.
Proof.
  intros Hw Hn Hrel Hc. simpl. rewrite Hn, Hrel, Hc. simpl. rewrite Hw.
  by rewrite (with_c_undo sg s Hc).
Qed.

(** Signal after signal: the loop stays in its [select]. *)
Lemma signals_tolerated i sgs sg rs : ∀ s,
  tasks s !! i = Some watcher →
  notified s = Some sgs → relayed sgs sg = true → c s = None →
  exec (flat_map (λ r, [Deliver sg; Recv i r]) rs) s
  = Some (foldl (λ s r, (Stop r s).2) s rs) ∧
  tasks (foldl (λ s r, (Stop r s).2) s rs) !! i = Some watcher.
Proof.
  induction rs as [|r rs IH]; intros s Hw Hn Hrel Hc; [done|].
  destruct (Stop_frame r s) as (Ht & _ & Hc' & Hn').
  cbn [flat_map foldl]. rewrite exec_app.
  rewrite (deliver_recv i sgs sg r s Hw Hn Hrel Hc). simpl.
  apply IH; congruence.
Qed.

(** C8.  [Run] spawns the signal loop after [signal.Notify] with the
    configured signals.  While the loop is in its [select]: when a signal
    is in the channel, the loop can take it, which calls [Stop]; the result
    of [Stop] is dropped (it does not reach [g.err]) and the loop is in its
    [select] again, so any number of signals, one after the other, is
    taken in this way.  When the context of the group is done with error
    [e], the loop can return, and it returns [e]; it cannot return
    before. *)
Theorem signal_loop (s : state) (i : nat) :
  (∀ r, pc s = Notifying →
     ∃ s', step (Main r) s = Some s' ∧ pc s' = Waiting ∧
           tasks s' = tasks s ++ [watcher] ∧
           notified s' = Some (sigs (opts (app s)))) ∧
  (tasks s !! i = Some watcher →
     (∀ sg r, c s = Some sg →
        ∃ s', step (Recv i r) s = Some s' ∧
              s' = (Stop r (with_c None s)).2 ∧
              tasks s' !! i = Some watcher ∧ g_err s' = g_err s ∧ c s' = None) ∧
     (∀ sgs sg rs, notified s = Some sgs → relayed sgs sg = true → c s = None →
        ∃ s', exec (flat_map (λ r, [Deliver sg; Recv i r]) rs) s = Some s' ∧
              s' = foldl (λ s r, (Stop r s).2) s rs ∧
              tasks s' !! i = Some watcher) ∧
     (∀ e r, g_ctx s = Some e →
        ∃ s', step (Sched i r) s = Some s' ∧
              tasks s' !! i = Some {| what := Watch; at_phase := Finished (Some e) |} ∧
              history s' = history s ++ [EvWatcherReturn (Some e)] ∧
              g_err s' = Some (default e (g_err s))) ∧
     (∀ r, g_ctx s = None → step (Sched i r) s = None)).
Proof.
  split.
  - intros r Hpc. simpl. unfold main_step. rewrite Hpc. by eexists.
  - intros Hw. repeat split.
    + intros sg r Hc. simpl. rewrite Hw, Hc. eexists. split; [done|].
      destruct (Stop_frame r (with_c None s)) as (Ht & He & Hc' & _).
      split; [done|]. by rewrite Ht, He, Hc'.
    + intros sgs sg rs Hn Hrel Hc.
      destruct (signals_tolerated i sgs sg rs s Hw Hn Hrel Hc) as [He Ht].
      by eexists.
    + intros e r Hctx. simpl. rewrite Hw. unfold task_step. simpl.
      rewrite Hctx. eexists. split; [done|].
      assert (i < length (tasks s)) as Hlt by by eapply lookup_lt_Some.
      unfold group_done. simpl.
      destruct (g_err s) eqn:Hg; simpl; rewrite ?Hg;
        by rewrite list_lookup_insert_eq.
    + intros r Hctx. simpl. rewrite Hw. unfold task_step. simpl. by rewrite Hctx.
Qed.

(** ** Fail fast *)

Lemma first_failure_app h1 h2 :
  first_failure (h1 ++ h2)
  = match first_failure h1 with
    | Some e => Some e
    | None => first_failure h2
    end.
Proof.
  induction h1 as [|ev h1 IH]; simpl; [done|]. by destruct (outcome ev).
Qed.

Lemma step_group_inv act s s' :
  group_inv s → step act s = Some s' → group_inv s'.
Proof.
  unfold group_inv. intros [H0 H1] Hstep.
  step_cases Hstep; split;
    try (intros Hpc; try done; destruct (H0 Hpc) as [Ht Hg];
         rewrite ?Ht in *; by simplify_list_eq);
    rewrite ?first_failure_app; simpl; rewrite <- ?H1; try done;
    try (destruct (g_err s); by simplify_eq).
  by destruct (H0 eq_refl) as [_ ->].
Qed.

Lemma exec_group_inv a acts s :
  exec acts (init a) = Some s → group_inv s.
Proof.
  apply (exec_invariant group_inv); [apply step_group_inv|]. by split.
Qed.

Lemma fmap_what_insert (ts : list task) i w p0 p :
  ts !! i = Some {| what := w; at_phase := p0 |} →
  what <$> <[i := {| what := w; at_phase := p |}]> ts = what <$> ts.
Proof.
  intros Hi. rewrite list_fmap_insert. simpl. apply list_insert_id.
  by rewrite list_lookup_fmap, Hi.
Qed.

Lemma called_mono (h : list event) (ev : event) (ts : list task) :
  Forall (λ t, ∀ j, what t = StopOf j → at_phase t ≠ Pending →
                    EvStopCall j ∈ h) ts →
  Forall (λ t, ∀ j, what t = StopOf j → at_phase t ≠ Pending →
                    EvStopCall j ∈ h ++ [ev]) ts.
Proof.
  intros H. eapply Forall_impl; [exact H|]. simpl.
  intros t Ht j Hw Hp. apply elem_of_app. left. eauto.
Qed.

Lemma Stop_stops_inv r s : stops_inv s → stops_inv (Stop r s).2.
Proof.
  unfold stops_inv, spawned_upto, Stop, finish_app_ctx. intros [H1 H2].
  destruct s as [a p gc ge ts n ch h]; simpl in *.
  repeat case_match; simplify_eq; simpl in *; simplify_eq; split;
    try done; repeat apply called_mono; try done.
Qed.

Lemma main_step_stops_inv r s s' :
  stops_inv s → main_step r s = Some s' → stops_inv s'.
Proof.
  unfold stops_inv, spawned_upto, main_step, go. intros [H1 H2] Hstep.
  destruct (pc s) eqn:Hpc; simplify_eq; simpl in *.
  - split; [lia|constructor].
  - destruct (servers (opts (app s)) !! k) as [srv|] eqn:Hk; simplify_eq; simpl.
    + split.
      * intros j Hj. rewrite !fmap_app, !elem_of_app. simpl.
        destruct (decide (j = k)) as [->|Hne].
        -- left. right. by apply list_elem_of_singleton.
        -- left. left. apply H1. lia.
      * rewrite !Forall_app, !Forall_singleton. by repeat split.
    + split; [|done]. intros j Hj. apply H1.
      apply lookup_ge_None in Hk. lia.
  - repeat case_match; simplify_eq; simpl; split; try done;
      by apply called_mono.
  - split.
    + intros j Hj. rewrite fmap_app, elem_of_app. left. by apply H1.
    + rewrite Forall_app, Forall_singleton. split; [by apply called_mono|done].
  - case_match; simplify_eq. simpl. by split.
Qed.

(** What a move of a task changes. *)
Lemma task_step_shape i w p0 r s s' :
  task_step i {| what := w; at_phase := p0 |} r s = Some s' →
  ∃ p ev,
    pc s' = pc s ∧ app s' = app s ∧
    tasks s' = <[i := {| what := w; at_phase := p |}]> (tasks s) ∧
    history s' = history s ++ [ev] ∧
    (∀ j, w = StopOf j → p0 = Pending → ev = EvStopCall j).
Proof.
  unfold task_step, group_done. intros Hstep.
  destruct w, p0; simpl in *; repeat case_match; simplify_eq;
    eexists _, _; simpl; repeat split; intros; by simplify_eq.
Qed.

Lemma task_step_stops_inv i t r s s' :
  tasks s !! i = Some t →
  stops_inv s → task_step i t r s = Some s' → stops_inv s'.
Proof.
  intros Hi [H1 H2] Hstep. destruct t as [w p0].
  destruct (task_step_shape _ _ _ _ _ _ Hstep) as (p & ev & Hpc & Ha & Ht & Hh & Hev).
  unfold stops_inv, spawned_upto. rewrite Hpc, Ha, Ht, Hh. split.
  - by erewrite fmap_what_insert.
  - apply Forall_insert; [by apply called_mono|]. simpl.
    intros j -> Hp. apply elem_of_app.
    destruct (decide (p0 = Pending)) as [->|Hne].
    + right. rewrite (Hev j eq_refl eq_refl). by apply list_elem_of_singleton.
    + left. apply (proj1 (Forall_lookup _ _) H2 i _ Hi j eq_refl Hne).
Qed.

Lemma step_stops_inv act s s' :
  stops_inv s → step act s = Some s' → stops_inv s'.
Proof.
  intros Hinv Hstep. destruct act as [r|i r|i r|sg|r|e]; simpl in Hstep.
  - by eapply main_step_stops_inv.
  - destruct (tasks s !! i) as [t|] eqn:Hi; [|done].
    by eapply task_step_stops_inv.
  - repeat case_match; simplify_eq.
    apply Stop_stops_inv. by destruct Hinv.
  - repeat case_match; simplify_eq; [exact Hinv|by destruct Hinv].
  - simplify_eq. by apply Stop_stops_inv.
  - repeat case_match; simplify_eq.
    destruct Hinv as [H1 H2]. destruct s as [a p gc ge ts n ch h].
    unfold stops_inv, spawned_upto, finish_app_ctx in *; simpl in *.
    destruct p; simpl; by split.
Qed.

Lemma exec_stops_inv a acts s :
  exec acts (init a) = Some s → stops_inv s.
Proof.
  apply (exec_invariant stops_inv); [apply step_stops_inv|].
  split; [|constructor]. unfold spawned_upto. simpl. intros j Hj. lia.
Qed.

Lemma first_failed_outcome h ev :
  first_failed h = Some ev → first_failure h = outcome ev ∧ is_Some (outcome ev).
Proof.
  induction h as [|ev' h IH]; simpl; [done|].
  destruct (outcome ev') as [e|] eqn:He; [|done].
  intros; simplify_eq. by rewrite He.
Qed.

(** As soon as a task has returned a non-nil error, the context of the
    group is done. *)
Lemma token_fires_on_failure a acts s :
  exec acts (init a) = Some s →
  is_Some (first_failure (history s)) → is_Some (g_ctx s).
Proof.
  intros Hexec Hf.
  destruct (exec_group_inv a acts s Hexec) as [H0 H1].
  destruct (exec_ctx_linked a acts s Hexec) as [_ Hl].
  rewrite <- H1 in Hf. apply Hl; [|done].
  intros Hpc. destruct (H0 Hpc) as [_ Hg]. rewrite Hg in Hf. by destruct Hf.
Qed.

(** When [Run] returns from [g.Wait()], every server's [Stop()] has been
    called. *)
Lemma stops_called_at_Wait a acts s :
  exec acts (init a) = Some s →
  pc s = Waiting → forallb is_finished (tasks s) = true →
  ∀ j, j < length (servers (opts a)) → EvStopCall j ∈ history s.
Proof.
  intros Hexec Hpc Hfin j Hj.
  destruct (exec_stops_inv a acts s Hexec) as [Hsp Hcalled].
  destruct (exec_same_config a acts s Hexec) as (_ & _ & Hsrv & _).
  unfold spawned_upto in Hsp. rewrite Hpc, Hsrv in Hsp.
  apply Hsp, list_elem_of_fmap in Hj as (t & Hw & Ht).
  apply (proj1 (Forall_forall _ _) Hcalled t Ht j); [done|].
  apply Is_true_true_2, forallb_True in Hfin.
  apply (proj1 (Forall_forall _ _) Hfin) in Ht.
  unfold is_finished in Ht. intros Hp. by rewrite Hp in Ht.
Qed.

Lemma Stop_tasks r s : tasks (Stop r s).2 = tasks s.
Proof. apply Stop_frame. Qed.

Lemma step_tasks_well_phased act s s' :
  tasks_well_phased s → step act s = Some s' → tasks_well_phased s'.
Proof.
  unfold tasks_well_phased. intros H Hstep.
  destruct act as [r|i r|i r|sg|r|e]; simpl in Hstep.
  - unfold main_step, go in Hstep. repeat case_match; simplify_eq; simpl;
      rewrite ?Forall_app, ?Forall_singleton; repeat split; try done.
  - destruct (tasks s !! i) as [[w p0]|] eqn:Hi; [|done].
    unfold task_step, group_done in Hstep.
    destruct w, p0; simpl in *; repeat case_match; simplify_eq; simpl;
      by apply Forall_insert.
  - repeat case_match; simplify_eq. by rewrite Stop_tasks.
  - repeat case_match; simplify_eq; done.
  - simplify_eq. by rewrite Stop_tasks.
  - repeat case_match; simplify_eq. unfold finish_app_ctx. simpl.
    by destruct (pc s).
Qed.

Lemma finish_task i t s :
  tasks s !! i = Some t → well_phased t → is_Some (g_ctx s) →
  ∃ s' r, exec (finish_moves i t) s = Some s' ∧
          pc s' = pc s ∧ is_Some (g_ctx s') ∧
          tasks s' = <[i := {| what := what t; at_phase := Finished r |}]> (tasks s).
Proof.
  intros Hi Hwp [e Hctx].
  assert (i < length (tasks s)) as Hlt by by eapply lookup_lt_Some.
  destruct t as [w p0]. unfold finish_moves, well_phased in *. simpl in *.
  destruct p0 as [| |r0], w; simpl; rewrite ?Hi; unfold task_step; simpl;
    rewrite ?Hctx; simpl; rewrite ?list_lookup_insert_eq by done; simpl;
    try (by destruct Hwp).
  all: unfold group_done; simpl;
    repeat case_match; simplify_eq; simpl;
    eexists _, _; (split; [done|]); simpl;
    rewrite ?list_insert_insert_eq, ?Hctx; repeat split; try done;
    try (symmetry; by apply list_insert_id).
Qed.

Lemma drain_from rest : ∀ done s,
  tasks s = done ++ rest → Forall well_phased rest → is_Some (g_ctx s) →
  ∃ s' rest', exec (drain (length done) rest) s = Some s' ∧
              pc s' = pc s ∧ is_Some (g_ctx s') ∧
              tasks s' = done ++ rest' ∧
              forallb is_finished rest' = true.
Proof.
  induction rest as [|t rest IH]; intros done s Ht Hwp Hctx.
  - exists s, []. by repeat split.
  - apply Forall_cons in Hwp as [Hwt Hwp].
    assert (tasks s !! length done = Some t) as Hi.
    { rewrite Ht. by apply list_lookup_middle. }
    destruct (finish_task _ _ _ Hi Hwt Hctx) as (s1 & r & He1 & Hpc1 & Hctx1 & Ht1).
    rewrite Ht in Ht1. rewrite insert_app_r_alt, Nat.sub_diag in Ht1 by done.
    simpl in Ht1.
    destruct (IH (done ++ [{| what := what t; at_phase := Finished r |}]) s1)
      as (s' & rest' & He & Hpc & Hctx' & Ht' & Hfin); [|done|done|].
    { by rewrite <- (assoc_L (++)). }
    exists s', ({| what := what t; at_phase := Finished r |} :: rest').
    rewrite length_app, Nat.add_1_r in He.
    simpl drain. rewrite exec_app, He1. simpl.
    split; [exact He|]. split; [congruence|]. split; [done|].
    split; [by rewrite Ht', <- (assoc_L (++))|done].
Qed.

(** The history of an execution only grows. *)
Lemma step_history act s s' :
  step act s = Some s' → ∃ evs, history s' = history s ++ evs.
Proof.
  intros Hstep. destruct s as [a p gc ge ts n ch h].
  step_cases Hstep; simpl; rewrite <- ?(assoc_L (++));
    try (by eexists); by (exists []; rewrite app_nil_r).
Qed.

Lemma exec_history acts : ∀ s s',
  exec acts s = Some s' → ∃ evs, history s' = history s ++ evs.
Proof.
  induction acts as [|act acts IH]; intros s s' Hexec; simpl in Hexec.
  - simplify_eq. exists []. by rewrite app_nil_r.
  - destruct (step act s) as [s1|] eqn:Hs; [|done].
    destruct (step_history _ _ _ Hs) as [evs1 H1].
    destruct (IH _ _ Hexec) as [evs2 H2].
    exists (evs1 ++ evs2). by rewrite H2, H1, (assoc_L (++)).
Qed.

Lemma first_failed_app h evs ev :
  first_failed h = Some ev → first_failed (h ++ evs) = Some ev.
Proof.
  induction h as [|ev' h IH]; simpl; [done|]. by destruct (outcome ev').
Qed.

Lemma step_past_spawning act s s' :
  past_spawning s → step act s = Some s' → past_spawning s'.
Proof.
  unfold past_spawning. intros H Hstep. destruct s as [a p gc ge ts n ch h].
  simpl in *. step_cases Hstep; simpl; destruct H as [?|[? ?]]; simplify_eq; eauto.
Qed.

Lemma step_Main_at_Waiting acts s s1 r s' :
  pc s = Waiting → exec acts s = Some s1 → step (Main r) s1 = Some s' →
  pc s1 = Waiting.
Proof.
  intros Hpc Hexec Hstep.
  assert (past_spawning s1) as [Hw|[r' Hr]]; [|done|].
  - revert Hexec. apply (exec_invariant past_spawning); [apply step_past_spawning|].
    by left.
  - simpl in Hstep. unfold main_step in Hstep. by rewrite Hr in Hstep.
Qed.

(** The return of [Run] from [g.Wait()] after a failure of a server. *)
Lemma fail_fast_at_return (a : App) (acts : list action) (s s' : state)
    (r : option error) (k : nat) (E : error) (ev : event) :
  exec acts (init a) = Some s →
  pc s = Waiting →
  step (Main r) s = Some s' →
  first_failed (history s) = Some ev →
  server_failure k E ev →
  errors_Is E Canceled = false →
  (∀ j, j < length (servers (opts a)) → EvStopCall j ∈ history s) ∧
  pc s' = Returned (Some E).
Proof.
  intros Hexec Hpc Hstep Hfirst Hev HE.
  destruct (first_failed_outcome _ _ Hfirst) as [Hff _].
  assert (outcome ev = Some E) as Hout by by destruct Hev as [-> | ->].
  rewrite Hout in Hff.
  destruct (exec_group_inv a acts s Hexec) as [_ Hg]. rewrite Hff in Hg.
  simpl in Hstep. unfold main_step in Hstep. rewrite Hpc in Hstep.
  destruct (forallb is_finished (tasks s)) eqn:Hfin; [|done].
  simplify_eq. simpl. split.
  - by apply (stops_called_at_Wait a acts s).
  - rewrite Hg. unfold after_Wait. by rewrite HE.
Qed.

Lemma exec_tasks_well_phased a acts s :
  exec acts (init a) = Some s → tasks_well_phased s.
Proof.
  apply (exec_invariant tasks_well_phased); [apply step_tasks_well_phased|].
  constructor.
Qed.

(** C6 (amended).  Let [Run] be in [g.Wait()], in any execution, and let
    the first non-nil error any task has returned be the error [E] of
    [Start()] or [Stop()] of a server, [E] not being [context.Canceled].
    Then the context of the group is done; [Run] can return [E] (it does
    when the calls into the servers return); and whenever [Run] returns,
    it returns [E], whatever the tasks returned later, and [Stop()] of
    every configured server has been called before. *)
Theorem Run_fail_fast (a : App) (acts : list action) (s : state)
    (k : nat) (E : error) (ev : event) :
  exec acts (init a) = Some s →
  pc s = Waiting →
  first_failed (history s) = Some ev →
  server_failure k E ev →
  errors_Is E Canceled = false →
  is_Some (g_ctx s) ∧
  (∃ more s', exec more s = Some s' ∧ pc s' = Returned (Some E)) ∧
  (∀ more s1 r s',
     exec more s = Some s1 → step (Main r) s1 = Some s' →
     pc s' = Returned (Some E) ∧
     ∀ j, j < length (servers (opts a)) → EvStopCall j ∈ history s1).
Proof.
  intros Hexec Hpc Hfirst Hev HE.
  assert (is_Some (g_ctx s)) as Hctx.
  { apply (token_fires_on_failure a acts s Hexec).
    destruct (first_failed_outcome _ _ Hfirst) as [-> H]. done. }
  assert (∀ more s1 r s',
     exec more s = Some s1 → step (Main r) s1 = Some s' →
     pc s' = Returned (Some E) ∧
     ∀ j, j < length (servers (opts a)) → EvStopCall j ∈ history s1) as Hret.
  { intros more s1 r s' Hmore Hstep.
    destruct (exec_history _ _ _ Hmore) as [evs Hh].
    destruct (fail_fast_at_return a (acts ++ more) s1 s' r k E ev); try done.
    - by rewrite exec_app, Hexec.
    - by eapply step_Main_at_Waiting.
    - rewrite Hh. by apply first_failed_app. }
  split; [done|]. split; [|done].
  destruct (drain_from (tasks s) [] s) as (s1 & rest' & He & Hpc1 & _ & Ht & Hfin);
    [done|by apply (exec_tasks_well_phased a acts)|done|].
  simpl in Ht, He.
  assert (∃ s', step (Main None) s1 = Some s') as [s' Hstep].
  { simpl. unfold main_step. rewrite Hpc1, Hpc, Ht, Hfin. by eexists. }
  exists (drain 0 (tasks s) ++ [Main None]), s'. split.
  - rewrite exec_app, He. cbn [mbind option_bind exec]. by rewrite Hstep.
  - by destruct (Hret _ _ _ _ He Hstep).
Qed.

(** ** The statements at work *)

Lemma Stop_deregister_gate_witness :
  ((Stop (Some etcd_down) (run_to to_Wait app_registry)).1 = Some etcd_down ∧
   g_ctx (Stop (Some etcd_down) (run_to to_Wait app_registry)).2 = None) ∧
  ((Stop None (run_to to_Wait app_registry)).1 = None ∧
   is_Some (g_ctx (Stop None (run_to to_Wait app_registry)).2)) ∧
  ((Stop (Some etcd_down) (run_to to_Wait app_two)).1 = None ∧
   is_Some (g_ctx (Stop (Some etcd_down) (run_to to_Wait app_two)).2)).
Proof.
  split; [|split].
  - destruct (Stop_deregister_gate uuid_ok opts_registry to_Wait
                (run_to to_Wait app_registry) (Some etcd_down))
      as [Hfail _]; [by vm_compute|].
    destruct (Hfail (RegistryHandle "etcd") etcd_down) as (Hr & _ & Hg & _);
      [by vm_compute|done|].
    split; [exact Hr|]. rewrite Hg. by vm_compute.
  - destruct (Stop_deregister_gate uuid_ok opts_registry to_Wait
                (run_to to_Wait app_registry) None)
      as [_ Hfire]; [by vm_compute|].
    destruct Hfire as (Hr & _ & Hg & _); [by right|].
    split; [exact Hr|]. apply Hg. by vm_compute.
  - destruct (Stop_deregister_gate uuid_ok opts_two to_Wait
                (run_to to_Wait app_two) (Some etcd_down))
      as [_ Hfire]; [by vm_compute|].
    destruct Hfire as (Hr & _ & Hg & _); [left; by vm_compute|].
    split; [exact Hr|]. apply Hg. by vm_compute.
Defined.

Lemma Run_register_failure_witness :
  ∃ s', step (Main (Some etcd_down)) (run_to to_Register app_registry) = Some s' ∧
        pc s' = Returned (Some etcd_down) ∧
        app s' = app (run_to to_Register app_registry) ∧
        g_ctx s' = g_ctx (run_to to_Register app_registry) ∧
        g_err s' = g_err (run_to to_Register app_registry) ∧
        tasks s' = tasks (run_to to_Register app_registry) ∧
        history s'
        = history (run_to to_Register app_registry)
          ++ [EvRegister (instance (app (run_to to_Register app_registry)))
                         (Some etcd_down)].
Proof.
  apply (Run_register_failure (run_to to_Register app_registry)
           (RegistryHandle "etcd") etcd_down); by vm_compute.
Defined.

Lemma Run_after_Wait_witness :
  (∃ s', step (Main None) (run_to stop_fails_after_signal app_two) = Some s' ∧
         pc s' = Returned None) ∧
  (∃ s', step (Main None) (run_to start_fails app_two) = Some s' ∧
         pc s' = Returned (Some listen_failed)).
Proof.
  split.
  - destruct (Run_after_Wait (run_to stop_fails_after_signal app_two) None)
      as (s' & Hstep & _ & Hnil & _); [by vm_compute|by vm_compute|].
    exists s'. split; [exact Hstep|]. apply Hnil. right. by vm_compute.
  - destruct (Run_after_Wait (run_to start_fails app_two) None)
      as (s' & Hstep & Hpc & _); [by vm_compute|by vm_compute|].
    exists s'. split; [exact Hstep|]. rewrite Hpc. by vm_compute.
Defined.

Lemma Stop_after_cancel_idempotent_witness :
  Forall (λ r, r = None)
         (Stop_repeatedly 3 (run_to stop_fails_after_signal app_two)).1 ∧
  length (Stop_repeatedly 3 (run_to stop_fails_after_signal app_two)).1 = 3 ∧
  app_ctx (app (Stop_repeatedly 3 (run_to stop_fails_after_signal app_two)).2)
  = Some Canceled ∧
  g_ctx (Stop_repeatedly 3 (run_to stop_fails_after_signal app_two)).2
  = g_ctx (run_to stop_fails_after_signal app_two).
Proof.
  apply (Stop_after_cancel_idempotent app_two stop_fails_after_signal);
    by vm_compute.
Defined.

Lemma instance_never_mutated_witness :
  Endpoints (instance (app (run_to register_fails app_registry)))
  = ["http://127.0.0.1:8000"; "grpc://127.0.0.1:9000"] ∧
  ID (instance (app (run_to (stop_fails_after_signal ++ [Main None]) app_two)))
  = "0f0e1a52".
Proof.
  split.
  - destruct (instance_never_mutated app_registry register_fails
                (run_to register_fails app_registry))
      as [(_ & _ & _ & _ & He) _]; [by vm_compute|].
    rewrite He. by vm_compute.
  - destruct (instance_never_mutated app_two (stop_fails_after_signal ++ [Main None])
                (run_to (stop_fails_after_signal ++ [Main None]) app_two))
      as [(Hi & _) _]; [by vm_compute|].
    rewrite Hi. by vm_compute.
Defined.

Lemma New_default_signals_witness :
  sigs (opts (New uuid_ok opts_two)) = [SIGTERM; SIGQUIT; SIGINT] ∧
  notified (run_to to_Wait app_two) = Some [SIGTERM; SIGQUIT; SIGINT].
Proof.
  destruct (New_default_signals uuid_ok opts_two to_Wait
              (run_to to_Wait app_two) [15; 3; 2]%Z) as [Hs Hn].
  - repeat constructor; by apply option_of_keeps_sigs.
  - split; [exact Hs|].
    destruct Hn as [Heq _]; [by vm_compute|by vm_compute|].
    rewrite <- Heq. by vm_compute.
Defined.

(** Scenario D of the specification: three signals in a row. *)
Lemma signal_loop_witness :
  (∃ s', step (Main None) (run_to (to_Register ++ [Main None]) app_two) = Some s' ∧
         tasks s' !! 4 = Some watcher) ∧
  (∃ s', exec [Deliver SIGTERM; Recv 4 None; Deliver SIGTERM; Recv 4 None;
               Deliver SIGINT; Recv 4 None; Sched 4 None]
              (run_to to_Wait app_two) = Some s' ∧
         tasks s' !! 4 = Some {| what := Watch; at_phase := Finished (Some Canceled) |}).
Proof.
  split.
  - destruct (signal_loop (run_to (to_Register ++ [Main None]) app_two) 0)
      as [Hspawn _].
    destruct (Hspawn None) as (s' & Hstep & _ & Ht & _); [by vm_compute|].
    exists s'. split; [exact Hstep|]. rewrite Ht. by vm_compute.
  - destruct (signal_loop (run_to to_Wait app_two) 4) as [_ Hloop].
    destruct Hloop as (_ & Hmany & _); [by vm_compute|].
    destruct (Hmany [15; 3; 2]%Z SIGTERM [None; None])
      as (s1 & He1 & Hs1 & Hw1); [by vm_compute|by vm_compute|by vm_compute|].
    destruct (signal_loop s1 4) as [_ Hloop1].
    destruct Hloop1 as (_ & Hmany1 & _); [exact Hw1|].
    destruct (Hmany1 [15; 3; 2]%Z SIGINT [None])
      as (s2 & He2 & Hs2 & Hw2); [by subst; vm_compute..|].
    destruct (signal_loop s2 4) as [_ Hloop2].
    destruct Hloop2 as (_ & _ & Hret & _); [exact Hw2|].
    destruct (Hret Canceled None) as (s3 & Hstep & Ht & _);
      [by subst; vm_compute|].
    exists s3. split; [|exact Ht].
    change [Deliver SIGTERM; Recv 4 None; Deliver SIGTERM; Recv 4 None;
            Deliver SIGINT; Recv 4 None; Sched 4 None]
      with (flat_map (λ r, [Deliver SIGTERM; Recv 4 r]) [None; None]
            ++ flat_map (λ r, [Deliver SIGINT; Recv 4 r]) [None]
            ++ [Sched 4 None]).
    rewrite exec_app, He1. cbn [mbind option_bind].
    rewrite exec_app, He2. cbn [mbind option_bind exec]. by rewrite Hstep.
Defined.

Lemma Run_fail_fast_witness :
  is_Some (g_ctx (run_to failed_start app_two)) ∧
  (∃ more s', exec more (run_to failed_start app_two) = Some s' ∧
              pc s' = Returned (Some listen_failed)) ∧
  pc (run_to (start_fails ++ [Main None]) app_two) = Returned (Some listen_failed) ∧
  EvStopCall 0 ∈ history (run_to start_fails app_two) ∧
  EvStopCall 1 ∈ history (run_to start_fails app_two).
Proof.
  destruct (Run_fail_fast app_two failed_start (run_to failed_start app_two)
              1 listen_failed (EvStartReturn 1 (Some listen_failed)))
    as (Hctx & Hcan & Hret).
  - by vm_compute.
  - by vm_compute.
  - by vm_compute.
  - by left.
  - by vm_compute.
  - split; [exact Hctx|]. split; [exact Hcan|].
    destruct (Hret stops_follow (run_to start_fails app_two) None
                (run_to (start_fails ++ [Main None]) app_two))
      as [Hpc Hstops]; [by vm_compute|by vm_compute|].
    split; [exact Hpc|]. split; apply Hstops; vm_compute; lia.
Defined.

(** C6, as stated, fails.  After a signal the signal loop returns the
    cancellation error before [Stop()] of server 0 returns its error:
    [g.err] is the cancellation error and [Run] returns nil.  And when
    [Register] fails, [Run] returns the error of [Register], not the
    error [Start()] of server 1 returned before, and [Stop()] of server 0
    has not been called. *)
Lemma fail_fast_counterexample :
  (exec (stop_fails_after_signal ++ [Main None]) (init app_two)
   = Some (run_to (stop_fails_after_signal ++ [Main None]) app_two) ∧
   first_server_failure
     (history (run_to (stop_fails_after_signal ++ [Main None]) app_two))
   = Some (0, close_failed) ∧
   pc (run_to (stop_fails_after_signal ++ [Main None]) app_two) = Returned None) ∧
  (exec register_fails (init app_registry)
   = Some (run_to register_fails app_registry) ∧
   first_server_failure (history (run_to register_fails app_registry))
   = Some (1, listen_failed) ∧
   pc (run_to register_fails app_registry) = Returned (Some etcd_down) ∧
   EvStopCall 0 ∉ history (run_to register_fails app_registry)) ∧
  ¬ fail_fast_as_stated.
Proof.
  split; [by vm_compute|]. split.
  - split; [by vm_compute|]. split; [by vm_compute|]. split; [by vm_compute|].
    apply (bool_decide_unpack _). by vm_compute.
  - intros H.
    destruct (H app_two (stop_fails_after_signal ++ [Main None])
                (run_to (stop_fails_after_signal ++ [Main None]) app_two)
                None 0 close_failed)
      as (_ & _ & Hr); by vm_compute.
Qed.

(** * Further properties *)

Lemma step_static_opts a act s s' :
  static_opts a s → step act s = Some s' → static_opts a s'.
Proof.
  unfold static_opts. intros H Hstep.
  step_cases Hstep; destruct H as (?&?); split;
    unfold set_ctx in *; simpl in *; congruence.
Qed.

Lemma exec_static_opts a acts s :
  exec acts (init a) = Some s → static_opts a s.
Proof.
  apply (exec_invariant (static_opts a)); [apply step_static_opts|done].
Qed.

Lemma static_opts_fields a s :
  static_opts a s →
  id (opts (app s)) = id (opts a) ∧ name (opts (app s)) = name (opts a) ∧
  version (opts (app s)) = version (opts a) ∧
  logger (opts (app s)) = logger (opts a) ∧
  servers (opts (app s)) = servers (opts a) ∧
  registry (opts (app s)) = registry (opts a).
Proof.
  intros [H _]. unfold set_ctx in H. injection H. intros. by repeat split.
Qed.

(** [a.Logger()], [a.Server()] and [a.Registry()] return what the options
    of [New] configured, at every point of every execution: no move of
    [Run], of its tasks or of [Stop] changes them. *)
Theorem getters_stable (a : App) (acts : list action) (s : state) :
  exec acts (init a) = Some s →
  App_Logger (app s) = App_Logger a ∧
  App_Server (app s) = App_Server a ∧
  App_Registry (app s) = App_Registry a.
Proof.
  intros Hexec. unfold App_Logger, App_Server, App_Registry.
  destruct (static_opts_fields a s (exec_static_opts _ _ _ Hexec))
    as (_ & _ & _ & -> & -> & ->). done.
Qed.

(** ** Construction *)

(** If [uuid.NewUUID()] succeeds and no option writes the identifier, the
    options and the instance carry the generated identifier. *)
Theorem New_uuid_success (uuid : string * option error) (os : list Option) :
  uuid.2 = None →
  Forall keeps_id os →
  id (opts (New uuid os)) = uuid.1 ∧ ID (instance (New uuid os)) = uuid.1.
Proof.
  intros Hu Hos.
  assert (id (opts (New uuid os)) = uuid.1) as Hid.
  { unfold New. simpl. rewrite Hu. by rewrite (foldl_keeps id os Hos). }
  split; [done|]. rewrite <- Hid. apply serviceInstance_fields.
Qed.

Lemma New_uuid_success_witness :
  ID (instance (New uuid_ok opts_registry)) = "0f0e1a52".
Proof.
  apply (New_uuid_success uuid_ok opts_registry); [reflexivity|].
  repeat constructor; by apply option_of_keeps_id.
Defined.

(** The options are applied in the order given, after the defaults and
    the generated identifier: what [New] builds from [os ++ [f]] is what
    it builds from [os] with [f] applied last. *)
Theorem New_options_in_order (uuid : string * option error)
    (os : list Option) (f : Option) (v : string) :
  opts (New uuid (os ++ [f])) = f (opts (New uuid os)) ∧
  instance (New uuid (os ++ [f])) = (serviceInstance (f (opts (New uuid os)))).1 ∧
  id (opts (New uuid (os ++ [option_of (OptID v)]))) = v ∧
  ID (instance (New uuid (os ++ [option_of (OptID v)]))) = v.
Proof.
  assert (∀ g, opts (New uuid (os ++ [g])) = g (opts (New uuid os))) as H.
  { intros g. unfold New. simpl. by rewrite foldl_app. }
  split; [apply H|]. split; [|split].
  - unfold New at 1. simpl. by rewrite foldl_app.
  - by rewrite H.
  - destruct (serviceInstance_fields (opts (New uuid (os ++ [option_of (OptID v)]))))
      as [Hid _].
    change (instance (New uuid (os ++ [option_of (OptID v)])))
      with (serviceInstance (opts (New uuid (os ++ [option_of (OptID v)])))).1.
    by rewrite Hid, H.
Qed.

Lemma successful_endpoints_cons srv srvs :
  successful_endpoints (srv :: srvs)
  = match answered srv with
    | Some e => e :: successful_endpoints srvs
    | None => successful_endpoints srvs
    end.
Proof. reflexivity. Qed.

Lemma successful_endpoints_length srvs :
  (length (successful_endpoints srvs) ≤ length srvs)%nat.
Proof.
  induction srvs as [|srv srvs IH]; [done|].
  rewrite successful_endpoints_cons.
  destruct (answered srv); simpl; lia.
Qed.

Lemma successful_endpoints_nil srvs :
  successful_endpoints srvs = [] ↔ Forall (λ srv, is_Some (Endpoint srv).2) srvs.
Proof.
  induction srvs as [|srv srvs IH].
  - split; [constructor|done].
  - rewrite successful_endpoints_cons, Forall_cons. unfold answered.
    destruct ((Endpoint srv).2) as [e|] eqn:He.
    + rewrite IH. split; [by split; [eexists|]|by intros [_ ?]].
    + split; [done|]. intros [[? ?] _]. done.
Qed.

Lemma successful_endpoints_all srvs :
  Forall (λ srv, (Endpoint srv).2 = None) srvs →
  successful_endpoints srvs = (λ srv, (Endpoint srv).1) <$> srvs.
Proof.
  induction 1 as [|srv srvs H _ IH]; [done|].
  rewrite successful_endpoints_cons. unfold answered. rewrite H, IH. done.
Qed.

(** Derived endpoints: at most one per server; none exactly when every
    handle fails (so with no servers); one per server, in order, when
    every handle answers. *)
Theorem derived_endpoints_bounds (o : options) :
  endpoints o = [] →
  (length (Endpoints (serviceInstance o).1) ≤ length (servers o))%nat ∧
  (Endpoints (serviceInstance o).1 = [] ↔
     Forall (λ srv, is_Some (Endpoint srv).2) (servers o)) ∧
  (Forall (λ srv, (Endpoint srv).2 = None) (servers o) →
     Endpoints (serviceInstance o).1 = (λ srv, (Endpoint srv).1) <$> servers o).
Proof.
  intros Hnil. destruct (serviceInstance_derived o Hnil) as [-> _].
  split; [apply successful_endpoints_length|].
  split; [apply successful_endpoints_nil|apply successful_endpoints_all].
Qed.

(** ** Single shot *)

Lemma step_latched e1 e2 e3 r act s s' :
  latched e1 e2 e3 r s → step act s = Some s' → latched e1 e2 e3 r s'.
Proof.
  unfold latched. intros (Hpc & H1 & H2 & H3 & H4) Hstep.
  destruct s as [a p gc ge ts n ch h]. simpl in *.
  step_cases Hstep; simplify_eq;
    (split; [done|]); repeat split; intros x Hx;
    try (by (specialize (H1 _ Hx) || specialize (H2 _ Hx)
             || specialize (H3 _ Hx) || specialize (H4 _ Hx));
            simpl in *; simplify_eq; try rewrite H1; try rewrite H2).
Qed.

(** Single shot.  Once [Run] has started, whatever moves follow: [a.ctx]
    and the context of the group stay done with their first error,
    [g.err] keeps the first error, and the result [Run] has returned does
    not change. *)
Theorem single_shot (s s' : state) (more : list action) :
  pc s ≠ NotRunning →
  exec more s = Some s' →
  (∀ e, app_ctx (app s) = Some e → app_ctx (app s') = Some e) ∧
  (∀ e, g_ctx s = Some e → g_ctx s' = Some e) ∧
  (∀ e, g_err s = Some e → g_err s' = Some e) ∧
  (∀ r, pc s = Returned r → pc s' = Returned r).
Proof.
  intros Hpc Hexec.
  assert (latched (app_ctx (app s)) (g_ctx s) (g_err s)
            (match pc s with Returned x => Some x | _ => None end) s') as H.
  { revert Hexec. apply exec_invariant; [apply step_latched|].
    unfold latched. repeat split; try done.
    intros x Hx. destruct (pc s); by simplify_eq. }
  destruct H as (_ & H1 & H2 & H3 & H4). repeat split; try done.
  intros r Hr. apply H4. by rewrite Hr.
Qed.

(** ** What the history of an execution looks like *)

Lemma times_snoc p h ev :
  times p (h ++ [ev]) = (times p h + if p ev then 1 else 0)%nat.
Proof.
  unfold times. rewrite filter_app, length_app. f_equal.
  rewrite filter_cons, filter_nil. destruct (p ev); by case_decide.
Qed.

Lemma times_app p h1 h2 : times p (h1 ++ h2) = (times p h1 + times p h2)%nat.
Proof. unfold times. by rewrite filter_app, length_app. Qed.

Lemma times_0_not_in p h ev : times p h = 0%nat → ev ∈ h → p ev = false.
Proof.
  unfold times. intros H Hin. destruct (p ev) eqn:Hp; [|done].
  assert (ev ∈ filter (λ ev, p ev = true) h) as Hf by by apply list_elem_of_filter.
  destruct (filter _ h); [by apply elem_of_nil in Hf|done].
Qed.

Lemma elem_of_snoc_l {A} (x y : A) (l : list A) : x ∈ l → x ∈ l ++ [y].
Proof. intros. apply elem_of_app. by left. Qed.

Lemma elem_of_snoc_r {A} (x : A) (l : list A) : x ∈ l ++ [x].
Proof. apply elem_of_app. right. by apply list_elem_of_singleton. Qed.

Lemma step_registry_inv a act s s' :
  same_config a s →
  registry_inv a s → step act s = Some s' → registry_inv a s'.
Proof.
  unfold registry_inv. intros (Hi & _ & _ & Hr & _) [H0 H1] Hstep.
  destruct s as [ap p gc ge ts n ch h]. simpl in *.
  step_cases Hstep; simplify_eq; rewrite ?times_snoc; simpl;
    rewrite ?Nat.add_0_r; (split; [try done; intros Hn; rewrite ?H0 by done;
      try done; congruence|]);
    repeat match goal with
    | H : _ ∧ _ |- _ => destruct H
    end; repeat split; try done; try lia;
    try (intros; repeat apply elem_of_snoc_l; by eauto).
  all: try (intros; rewrite <- Hi; apply elem_of_snoc_r).
  - intros [? ?]; congruence.
  - intros [? ?]; congruence.
Qed.

Lemma exec_registry_inv a acts s :
  exec acts (init a) = Some s → registry_inv a s.
Proof.
  intros Hexec.
  assert (same_config a s ∧ registry_inv a s) as [_ H]; [|done].
  revert Hexec. apply (exec_invariant (λ s, same_config a s ∧ registry_inv a s)).
  - intros act s1 s2 [Hc Hr] Hstep. split.
    + by eapply step_same_config.
    + by eapply step_registry_inv.
  - split; [done|]. by split.
Qed.

Lemma times_two p (h : list event) x y :
  x ∈ h → y ∈ h → x ≠ y → p x = true → p y = true → (2 ≤ times p h)%nat.
Proof.
  intros Hx Hy Hne Hpx Hpy. unfold times.
  assert (x ∈ filter (λ ev, p ev = true) h) as Hfx by by apply list_elem_of_filter.
  assert (y ∈ filter (λ ev, p ev = true) h) as Hfy by by apply list_elem_of_filter.
  destruct (filter (λ ev, p ev = true) h) as [|a [|b l]]; simpl.
  - by apply elem_of_nil in Hfx.
  - apply list_elem_of_singleton in Hfx, Hfy. congruence.
  - lia.
Qed.

(** Without a registry, neither [Run] nor [Stop] ever calls one. *)
Theorem no_registry_no_calls (a : App) (acts : list action) (s : state) :
  exec acts (init a) = Some s →
  registry (opts a) = None →
  ∀ inst r, (EvRegister inst r ∉ history s) ∧ (EvDeregister inst r ∉ history s).
Proof.
  intros Hexec Hnone inst r.
  destruct (exec_registry_inv a acts s Hexec) as [H0 _].
  specialize (H0 Hnone).
  split; intros Hin; apply (times_0_not_in _ _ _ H0) in Hin; done.
Qed.

(** [Run] calls [Register] at most once, and [signal.Notify] only after
    [Register] (if there is a registry) has succeeded. *)
Theorem Register_once_before_Notify (a : App) (acts : list action) (s : state) :
  exec acts (init a) = Some s →
  (times is_register (history s) ≤ 1)%nat ∧
  (∀ sgs reg, notified s = Some sgs → registry (opts a) = Some reg →
     EvRegister (instance a) None ∈ history s ∧
     ∀ inst e, EvRegister inst (Some e) ∉ history s).
Proof.
  intros Hexec. destruct (exec_registry_inv a acts s Hexec) as [_ H].
  assert ((times is_register (history s) ≤ 1)%nat ∧
          (is_Some (notified s) → is_Some (registry (opts a)) →
           EvRegister (instance a) None ∈ history s)) as [Hle Hin].
  { destruct (pc s); destruct H as (H1 & H2); try destruct H2 as (H2 & H3);
      split; try lia; try done; intros [? ?]; congruence. }
  split; [done|]. intros sgs reg Hn Hreg.
  assert (EvRegister (instance a) None ∈ history s) as Hok.
  { apply Hin; by eexists. }
  split; [done|]. intros inst e Hbad.
  pose proof (times_two is_register _ _ _ Hok Hbad) as H2.
  assert (2 ≤ times is_register (history s))%nat; [by apply H2|lia].
Qed.

Lemma step_infow_inv a act s s' :
  static_opts a s → group_inv s →
  infow_inv a s → step act s = Some s' → infow_inv a s'.
Proof.
  unfold infow_inv, startup_line. intros Hst [Hg _] H Hstep.
  destruct (static_opts_fields a s Hst) as (Hid & Hname & Hver & _).
  destruct s as [ap p gc ge ts n ch h]. simpl in *.
  step_cases Hstep; simplify_eq; rewrite ?Hid, ?Hname, ?Hver;
    try done;
    try (destruct (Hg eq_refl) as [-> _]; by simplify_list_eq);
    try (rewrite ?Forall_app, ?Forall_singleton; by repeat split);
    try (exists h, []; by repeat split);
    destruct H as (pre & post & -> & Hpre & Hpost);
    rewrite <- ?(assoc_L (++)); simpl;
    eexists pre, _; (split; [reflexivity|]); (split; [done|]);
    rewrite ?(assoc_L (++)), ?times_app, ?Hpost; simpl; try done.
Qed.

(** An invariant may rely on what is known of all states an execution
    reaches. *)
Lemma exec_invariant_reach (a : App) (Q P : state → Prop) :
  (∀ acts s, exec acts (init a) = Some s → Q s) →
  (∀ act s s', Q s → P s → step act s = Some s' → P s') →
  P (init a) →
  ∀ acts s, exec acts (init a) = Some s → P s.
Proof.
  intros HQ Hstep H0 acts.
  induction acts as [|act acts IH] using rev_ind; intros s Hexec.
  - simpl in Hexec. by simplify_eq.
  - rewrite exec_app in Hexec.
    destruct (exec acts (init a)) as [s1|] eqn:H1; [|done].
    simpl in Hexec. destruct (step act s1) as [s2|] eqn:H2; [|done].
    simplify_eq. eapply Hstep; [by eapply HQ|by apply IH|done].
Qed.

Lemma exec_infow_inv a acts s :
  exec acts (init a) = Some s → infow_inv a s.
Proof.
  apply (exec_invariant_reach a (λ s, static_opts a s ∧ group_inv s)).
  - intros acts' s' H. split; [by eapply exec_static_opts|by eapply exec_group_inv].
  - intros act s1 s2 [? ?] ? ?. by eapply step_infow_inv.
  - constructor.
Qed.

(** [Run] logs one line, with the identifier, name and version that the
    instance carries, before anything else it does: what precedes the
    line in the history are calls of [Stop] made before [Run]. *)
Theorem startup_line_once (uuid : string * option error) (os : list Option)
    (acts : list action) (s : state) :
  exec acts (init (New uuid os)) = Some s →
  pc s ≠ NotRunning →
  ∃ pre post,
    history s = pre ++ EvInfow [("service_id", ID (instance (app s)));
                                ("service_name", Name (instance (app s)));
                                ("version", Version (instance (app s)))] :: post ∧
    Forall (λ ev, is_stop_event ev = true) pre ∧
    times is_infow (history s) = 1%nat.
Proof.
  intros Hexec Hpc.
  pose proof (exec_infow_inv _ acts s Hexec) as H. unfold infow_inv in H.
  destruct (exec_same_config _ acts s Hexec) as (Hi & _).
  assert (∃ pre post, history s = pre ++ startup_line (New uuid os) :: post ∧
            Forall (λ ev, is_stop_event ev = true) pre ∧
            times is_infow post = 0%nat) as (pre & post & Hh & Hpre & Hpost).
  { by destruct (pc s). }
  exists pre, post. split; [|split; [done|]].
  - rewrite Hh, Hi. unfold startup_line.
    destruct (serviceInstance_fields (opts (New uuid os))) as (H1 & H2 & H3 & _).
    change (instance (New uuid os)) with (serviceInstance (opts (New uuid os))).1.
    by rewrite H1, H2, H3.
  - rewrite Hh, times_app.
    change (startup_line (New uuid os) :: post)
      with ([startup_line (New uuid os)] ++ post).
    rewrite times_app, Hpost.
    assert (times is_infow pre = 0%nat) as ->.
    { clear -Hpre. induction Hpre as [|ev pre Hev _ IH]; [done|].
      change (ev :: pre) with ([ev] ++ pre). rewrite times_app, IH.
      destruct ev; done. }
    done.
Qed.

Lemma step_stop_after_cancel act s s' :
  group_inv s →
  stop_after_cancel s → step act s = Some s' → stop_after_cancel s'.
Proof.
  unfold stop_after_cancel. intros [Hg _] H Hstep.
  destruct s as [ap p gc ge ts n ch h]. simpl in *.
  step_cases Hstep; simplify_eq; rewrite ?times_app; simpl;
    intros [?|?]; simplify_eq;
    try (destruct (Hg eq_refl) as [-> _];
         match goal with H : [] !! _ = Some _ |- _ => by rewrite lookup_nil in H end);
    rewrite ?H by eauto; try done;
    try (by destruct gc); try (by destruct (app_ctx ap)).
Qed.

Lemma exec_stop_after_cancel a acts s :
  exec acts (init a) = Some s → stop_after_cancel s.
Proof.
  apply (exec_invariant_reach a group_inv).
  - apply exec_group_inv.
  - intros act s1 s2 ? ? ?. by eapply step_stop_after_cancel.
  - by intros _.
Qed.

(** No server's [Stop()] is called before the context of the group is
    done: a stop task acts only after cancellation. *)
Theorem Stop_only_after_cancel (a : App) (acts : list action) (s : state) (j : nat) :
  exec acts (init a) = Some s →
  EvStopCall j ∈ history s →
  pc s ≠ NotRunning ∧ is_Some (g_ctx s).
Proof.
  intros Hexec Hin. pose proof (exec_stop_after_cancel a acts s Hexec) as H.
  unfold stop_after_cancel in H.
  assert (¬ (pc s = NotRunning ∨ g_ctx s = None)) as Hn.
  { intros Hor. apply H in Hor. by apply (times_0_not_in _ _ _ Hor) in Hin. }
  split; [tauto|]. destruct (g_ctx s); [done|tauto].
Qed.

(** ** The tasks of the group *)

Lemma jobs_S k : jobs (S k) = jobs k ++ [StopOf k; StartOf k].
Proof.
  unfold jobs. rewrite seq_S, bind_app. f_equal.
Qed.

Lemma elem_of_jobs w k :
  w ∈ jobs k ↔ ∃ j, (j < k)%nat ∧ (w = StopOf j ∨ w = StartOf j).
Proof.
  unfold jobs. rewrite list_elem_of_bind. split.
  - intros (j & Hw & Hj). exists j. apply elem_of_seq in Hj.
    split; [lia|]. rewrite !elem_of_cons, elem_of_nil in Hw. tauto.
  - intros (j & Hj & Hw). exists j. split.
    + rewrite !elem_of_cons. tauto.
    + apply elem_of_seq. lia.
Qed.

Lemma NoDup_jobs k : NoDup (jobs k).
Proof.
  induction k as [|k IH]; [constructor|].
  rewrite jobs_S. apply NoDup_app. split; [done|]. split.
  - intros w Hw Hin. apply elem_of_jobs in Hw as (j & Hj & Hw).
    rewrite !elem_of_cons, elem_of_nil in Hin.
    destruct Hw as [-> | ->], Hin as [?|[?|[]]]; simplify_eq; lia.
  - apply NoDup_cons. split; [|apply NoDup_singleton].
    rewrite list_elem_of_singleton. done.
Qed.

Lemma NoDup_jobs_watch k (n : option (list Signal)) :
  NoDup (jobs k ++ watch_if n).
Proof.
  apply NoDup_app. split; [apply NoDup_jobs|]. split.
  - intros w Hw Hin. apply elem_of_jobs in Hw as (j & Hj & Hw).
    destruct n; [|by apply elem_of_nil in Hin].
    apply list_elem_of_singleton in Hin. destruct Hw; congruence.
  - destruct n; [apply NoDup_singleton|constructor].
Qed.

(** What a call of [Stop] leaves as it is. *)
Lemma Stop_effect r s :
  pc (Stop r s).2 = pc s ∧ tasks (Stop r s).2 = tasks s ∧
  notified (Stop r s).2 = notified s ∧
  opts (app (Stop r s).2) = opts (app s) ∧
  ∃ evs, history (Stop r s).2 = history s ++ evs ∧
         Forall (λ ev, is_stop_event ev = true) evs.
Proof.
  unfold Stop, finish_app_ctx. destruct s as [ap p gc ge ts n ch h]. simpl.
  repeat case_match; simplify_eq; simpl; repeat split; try done;
    rewrite <- ?(assoc_L (++));
    first [ by (exists []; rewrite app_nil_r; split; [done|constructor])
          | by (eexists; split; [done|]; repeat constructor) ].
Qed.

Opaque jobs.

Lemma main_step_group_shape r s s' :
  group_shape s → main_step r s = Some s' → group_shape s'.
Proof.
  unfold group_shape, spawned_upto, main_step, go. intros [H1 H2] Hstep.
  destruct s as [ap p gc ge ts n ch h]. simpl in *.
  destruct p; simplify_eq; simpl in *.
  - subst. split; [done|]. split; [done|lia].
  - destruct H2 as [-> Hk]. simpl in *. rewrite app_nil_r in H1.
    destruct (servers (opts ap) !! k) as [srv|] eqn:Hsrv; simplify_eq; simpl.
    + split.
      * rewrite !fmap_app, H1, jobs_S, app_nil_r, <- (assoc_L (++)). done.
      * split; [done|]. apply lookup_lt_Some in Hsrv. lia.
    + split; [|done]. apply lookup_ge_None in Hsrv.
      rewrite H1, app_nil_r. f_equal. lia.
  - subst. repeat case_match; simplify_eq; simpl; by split.
  - subst. split; [|by eexists]. rewrite fmap_app, H1, app_nil_r. done.
  - case_match; simplify_eq. simpl. by split.
Qed.

(** A move of a task is one of three: a server task enters its call, a
    server task returns from it, the signal loop returns. *)
Lemma task_step_effect i w p0 r s s' :
  task_step i {| what := w; at_phase := p0 |} r s = Some s' →
  ∃ p ev,
    pc s' = pc s ∧ app s' = app s ∧ notified s' = notified s ∧
    tasks s' = <[i := {| what := w; at_phase := p |}]> (tasks s) ∧
    history s' = history s ++ [ev] ∧
    ((p0 = Pending ∧ p = Calling ∧ call_event w = Some ev) ∨
     (p0 = Calling ∧ w ≠ Watch ∧ p = Finished r ∧ ev = return_event w r) ∨
     (p0 = Pending ∧ w = Watch ∧
      ∃ e, p = Finished (Some e) ∧ ev = return_event w (Some e))).
Proof.
  unfold task_step, group_done. intros Hstep.
  destruct w, p0; simpl in *; repeat case_match; simplify_eq;
    eexists _, _; simpl; repeat split; eauto 10.
Qed.

Lemma step_group_shape act s s' :
  group_shape s → step act s = Some s' → group_shape s'.
Proof.
  intros Hinv Hstep. destruct act as [r|i r|i r|sg|r|e]; simpl in Hstep.
  - by eapply main_step_group_shape.
  - destruct (tasks s !! i) as [[w p0]|] eqn:Hi; [|done].
    destruct (task_step_effect _ _ _ _ _ _ Hstep)
      as (p & ev & Hpc & Ha & Hn & Ht & _).
    unfold group_shape, spawned_upto in *. rewrite Hpc, Ha, Hn, Ht.
    by erewrite fmap_what_insert.
  - repeat case_match; simplify_eq.
    destruct (Stop_effect r (with_c None s)) as (Hpc & Ht & Hn & Ho & _).
    unfold group_shape, spawned_upto in *. by rewrite Hpc, Ht, Hn, Ho.
  - repeat case_match; simplify_eq; [exact Hinv|by destruct Hinv].
  - simplify_eq. destruct (Stop_effect r s) as (Hpc & Ht & Hn & Ho & _).
    unfold group_shape, spawned_upto in *. by rewrite Hpc, Ht, Hn, Ho.
  - repeat case_match; simplify_eq.
    destruct Hinv as [H1 H2]. destruct s as [a p gc ge ts n ch h].
    unfold group_shape, spawned_upto, finish_app_ctx in *; simpl in *.
    destruct p; simpl; by split.
Qed.

Lemma exec_group_shape a acts s :
  exec acts (init a) = Some s → group_shape s.
Proof.
  apply (exec_invariant group_shape); [apply step_group_shape|]. by split.
Qed.

Lemma what_tasks_at_Wait a acts s :
  exec acts (init a) = Some s →
  pc s = Waiting →
  what <$> tasks s = jobs (length (servers (opts a))) ++ [Watch].
Proof.
  intros Hexec Hpc.
  destruct (exec_group_shape a acts s Hexec) as [H1 H2].
  destruct (exec_same_config a acts s Hexec) as (_ & _ & Hsrv & _).
  unfold spawned_upto in H1. rewrite Hpc in H1, H2. rewrite Hsrv in H1.
  destruct H2 as [sgs Hn]. by rewrite Hn in H1.
Qed.

Lemma length_jobs k : length (jobs k) = (2 * k)%nat.
Proof.
  induction k as [|k IH]; [done|].
  rewrite jobs_S, length_app, IH. simpl. lia.
Qed.

(** How many tasks and which: in [g.Wait()] the group has two tasks per
    configured server, in the order of the servers, and the signal loop. *)
Theorem group_at_Wait (a : App) (acts : list action) (s : state) :
  exec acts (init a) = Some s →
  pc s = Waiting →
  what <$> tasks s = jobs (length (servers (opts a))) ++ [Watch] ∧
  length (tasks s) = S (2 * length (servers (opts a))).
Proof.
  intros Hexec Hpc.
  pose proof (what_tasks_at_Wait a acts s Hexec Hpc) as H1.
  split; [done|].
  rewrite <- (length_fmap what), H1, length_app, length_jobs. simpl. lia.
Qed.

(** ** Every server is started once and stopped once *)

Lemma filter_insert_length {A} (P : A → Prop) `{∀ x, Decision (P x)}
    (l : list A) i x y :
  l !! i = Some x →
  (length (filter P (<[i:=y]> l)) + (if decide (P x) then 1 else 0)
   = length (filter P l) + (if decide (P y) then 1 else 0))%nat.
Proof.
  intros Hi. rewrite <- (take_drop_middle l i x Hi) at 2.
  rewrite insert_take_drop by by eapply lookup_lt_Some.
  rewrite !filter_app, !filter_cons, !length_app.
  destruct (decide (P x)), (decide (P y)); simpl; lia.
Qed.

Lemma times_stop_events p evs :
  Forall (λ ev, is_stop_event ev = true) evs →
  (∀ ev, is_stop_event ev = true → p ev = false) →
  times p evs = 0%nat.
Proof.
  intros Hevs Hp. induction Hevs as [|ev evs Hev _ IH]; [done|].
  change (ev :: evs) with ([ev] ++ evs). rewrite times_app, IH.
  unfold times. rewrite filter_cons, filter_nil.
  rewrite decide_False by (by rewrite (Hp ev Hev)). done.
Qed.

Lemma is_event_call_stop w ev x :
  call_event w = Some ev → is_stop_event x = true → is_event ev x = false.
Proof.
  intros Hw Hx. unfold is_event. apply bool_decide_eq_false. intros ->.
  destruct w; simpl in Hw; simplify_eq; simpl in Hx; done.
Qed.

Lemma returns_mono (h evs : list event) (ts : list task) :
  Forall (λ t, ∀ r, at_phase t = Finished r →
                    return_event (what t) r ∈ h ∧
                    (what t = Watch → is_Some r)) ts →
  Forall (λ t, ∀ r, at_phase t = Finished r →
                    return_event (what t) r ∈ h ++ evs ∧
                    (what t = Watch → is_Some r)) ts.
Proof.
  intros H. eapply Forall_impl; [exact H|]. simpl.
  intros t Ht r Hr. destruct (Ht r Hr). split; [|done].
  apply elem_of_app. by left.
Qed.

Lemma Stop_calls_inv r s : calls_inv s → calls_inv (Stop r s).2.
Proof.
  intros [H1 H2]. destruct (Stop_effect r s) as (_ & Ht & _ & _ & evs & Hh & Hevs).
  unfold calls_inv. rewrite Ht, Hh. split.
  - intros w ev Hw. rewrite times_app, (H1 w ev Hw).
    rewrite (times_stop_events _ evs Hevs); [lia|].
    intros x. by apply (is_event_call_stop w).
  - by apply returns_mono.
Qed.

Lemma task_step_calls_inv i t r s s' :
  tasks s !! i = Some t →
  calls_inv s → task_step i t r s = Some s' → calls_inv s'.
Proof.
  intros Hi [H1 H2] Hstep. destruct t as [w p0].
  destruct (task_step_effect _ _ _ _ _ _ Hstep)
    as (p & ev & _ & _ & _ & Ht & Hh & Hcase).
  unfold calls_inv. rewrite Ht, Hh. split.
  - intros w' ev' Hw'. rewrite times_snoc, (H1 w' ev' Hw').
    pose proof (filter_insert_length (has_called w') (tasks s) i _
                  {| what := w; at_phase := p |} Hi) as Hlen.
    unfold is_event.
    destruct Hcase as [(-> & -> & Hev)|[(-> & Hw & -> & ->)|(-> & -> & e & -> & ->)]].
    + rewrite decide_False in Hlen by (by intros [_ ?]).
      destruct (decide (w = w')) as [->|Hne].
      * rewrite decide_True in Hlen by done.
        rewrite bool_decide_eq_true_2 by congruence. lia.
      * rewrite decide_False in Hlen by (by intros [? _]).
        rewrite bool_decide_eq_false_2; [lia|].
        intros ->. destruct w, w'; simpl in *; simplify_eq.
    + rewrite bool_decide_eq_false_2 by (destruct w, w'; simpl in *; simplify_eq; done).
      destruct (decide (w = w')) as [->|Hne].
      * rewrite !decide_True in Hlen by done. lia.
      * rewrite !decide_False in Hlen by (by intros [? _]). lia.
    + rewrite bool_decide_eq_false_2 by (destruct w'; simpl in *; simplify_eq; done).
      rewrite !decide_False in Hlen by (intros [<- _]; simplify_eq). lia.
  - apply Forall_insert; [by apply returns_mono|]. simpl.
    intros r' Hr'.
    destruct Hcase as [(-> & -> & Hev)|[(-> & Hw & -> & ->)|(-> & -> & e & -> & ->)]];
      simplify_eq.
    + split; [apply elem_of_snoc_r|done].
    + split; [apply elem_of_snoc_r|by eexists].
Qed.

Lemma times_not_call w ev x :
  call_event w = Some ev →
  (∀ j, x ≠ EvStopCall j) → (∀ j, x ≠ EvStartCall j) →
  times (is_event ev) [x] = 0%nat.
Proof.
  intros Hw H1 H2. unfold times, is_event.
  rewrite filter_cons, filter_nil, decide_False; [done|].
  rewrite bool_decide_eq_true. intros ->.
  destruct w; simpl in Hw; simplify_eq; [by eapply H1|by eapply H2].
Qed.

Lemma filter_none {A} (P : A → Prop) `{∀ x, Decision (P x)} (l : list A) :
  (∀ x, x ∈ l → ¬ P x) → filter P l = [].
Proof.
  induction l as [|x l IH]; intros Hl; [done|].
  rewrite filter_cons, decide_False by (apply Hl; by left).
  apply IH. intros y Hy. apply Hl. by right.
Qed.

Lemma filter_has_called_pending w w' ts :
  filter (has_called w) (ts ++ [{| what := w'; at_phase := Pending |}])
  = filter (has_called w) ts.
Proof.
  rewrite filter_app, filter_cons, filter_nil, decide_False, app_nil_r; [done|].
  by intros [_ ?].
Qed.

Lemma main_step_calls_inv r s s' :
  group_inv s →
  calls_inv s → main_step r s = Some s' → calls_inv s'.
Proof.
  unfold calls_inv, main_step, go. intros [Hg _] [H1 H2] Hstep.
  destruct s as [ap p gc ge ts n ch h]. simpl in *.
  destruct p; repeat case_match; simplify_eq; simpl in *;
    try (destruct (Hg eq_refl) as [-> _]);
    (split;
     [intros w ev Hw; rewrite ?times_app, ?filter_has_called_pending,
        <- ?(H1 w ev Hw);
      rewrite ?(times_not_call w ev) by done; simpl;
      try lia; rewrite (H1 w ev Hw); simpl; lia
     |rewrite ?Forall_app, ?Forall_singleton; repeat split;
      try (by apply returns_mono); done]).
Qed.

Lemma step_calls_inv act s s' :
  group_inv s →
  calls_inv s → step act s = Some s' → calls_inv s'.
Proof.
  intros Hg Hinv Hstep. destruct act as [r|i r|i r|sg|r|e]; simpl in Hstep.
  - by eapply main_step_calls_inv.
  - destruct (tasks s !! i) as [t|] eqn:Hi; [|done].
    by eapply task_step_calls_inv.
  - repeat case_match; simplify_eq.
    apply Stop_calls_inv. by destruct Hinv.
  - repeat case_match; simplify_eq; [exact Hinv|by destruct Hinv].
  - simplify_eq. by apply Stop_calls_inv.
  - repeat case_match; simplify_eq.
    destruct Hinv as [H1 H2]. destruct s as [a p gc ge ts n ch h].
    unfold calls_inv, finish_app_ctx in *; simpl in *.
    destruct p; simpl; by split.
Qed.

Lemma exec_calls_inv a acts s :
  exec acts (init a) = Some s → calls_inv s.
Proof.
  apply (exec_invariant_reach a group_inv).
  - apply exec_group_inv.
  - intros act s1 s2 ? ? ?. by eapply step_calls_inv.
  - split; [done|constructor].
Qed.

Lemma filter_has_called_le w (ts : list task) :
  NoDup (what <$> ts) → (length (filter (has_called w) ts) ≤ 1)%nat.
Proof.
  induction ts as [|t ts IH]; [simpl; lia|].
  rewrite fmap_cons, NoDup_cons. intros [Hnot Hnd].
  rewrite filter_cons. destruct (decide (has_called w t)) as [[Hw _]|_]; [|by apply IH].
  assert (filter (has_called w) ts = []) as ->; [|simpl; lia].
  apply filter_none. intros t' Ht' [Hw' _].
  apply Hnot, list_elem_of_fmap. exists t'. split; [congruence|done].
Qed.

Lemma filter_has_called_ge w (ts : list task) t :
  t ∈ ts → has_called w t → (1 ≤ length (filter (has_called w) ts))%nat.
Proof.
  intros Hin Hc.
  assert (t ∈ filter (has_called w) ts) as Hf by by apply list_elem_of_filter.
  destruct (filter _ ts); [by apply elem_of_nil in Hf|simpl; lia].
Qed.

Lemma filter_has_called_absent w (ts : list task) :
  w ∉ what <$> ts → length (filter (has_called w) ts) = 0%nat.
Proof.
  intros Hnot. assert (filter (has_called w) ts = []) as ->; [|done].
  apply filter_none. intros t Ht [Hw _].
  apply Hnot, list_elem_of_fmap. by exists t.
Qed.

Lemma has_called_at_most_one a acts s w :
  exec acts (init a) = Some s →
  (length (filter (has_called w) (tasks s)) ≤ 1)%nat.
Proof.
  intros Hexec. destruct (exec_group_shape a acts s Hexec) as [Hsh _].
  apply filter_has_called_le. rewrite Hsh. apply NoDup_jobs_watch.
Qed.

(** In every execution each server's [Start()] and each server's
    [Stop()] is called at most once, and never for an index that is not
    a configured server. *)
Theorem servers_called_at_most_once (a : App) (acts : list action)
    (s : state) (j : nat) :
  exec acts (init a) = Some s →
  (times (is_event (EvStartCall j)) (history s) ≤ 1)%nat ∧
  (times (is_event (EvStopCall j)) (history s) ≤ 1)%nat ∧
  ((length (servers (opts a)) ≤ j)%nat →
     (EvStartCall j ∉ history s) ∧ (EvStopCall j ∉ history s)).
Proof.
  intros Hexec.
  destruct (exec_calls_inv a acts s Hexec) as [Hc _].
  destruct (exec_group_shape a acts s Hexec) as [Hsh Hpc].
  destruct (exec_same_config a acts s Hexec) as (_ & _ & Hsrv & _).
  rewrite (Hc (StartOf j) _ eq_refl), (Hc (StopOf j) _ eq_refl).
  split; [by eapply has_called_at_most_one|].
  split; [by eapply has_called_at_most_one|].
  intros Hj.
  assert (spawned_upto s ≤ length (servers (opts a)))%nat as Hup.
  { unfold spawned_upto. rewrite <- Hsrv. destruct (pc s); try lia. }
  assert (∀ w, (w = StartOf j ∨ w = StopOf j) → w ∉ what <$> tasks s) as Hnot.
  { intros w Hw. rewrite Hsh, elem_of_app, elem_of_jobs.
    intros [(j' & Hj' & Hw')|Hin].
    - destruct Hw as [-> | ->], Hw' as [?|?]; simplify_eq; lia.
    - destruct (notified s); [|by apply elem_of_nil in Hin].
      apply list_elem_of_singleton in Hin. destruct Hw; congruence. }
  split; intros Hin.
  - pose proof (Hc (StartOf j) _ eq_refl) as Heq.
    rewrite filter_has_called_absent in Heq by (apply Hnot; by left).
    apply (times_0_not_in _ _ _ Heq) in Hin. unfold is_event in Hin.
    by rewrite bool_decide_eq_true_2 in Hin.
  - pose proof (Hc (StopOf j) _ eq_refl) as Heq.
    rewrite filter_has_called_absent in Heq by (apply Hnot; by right).
    apply (times_0_not_in _ _ _ Heq) in Hin. unfold is_event in Hin.
    by rewrite bool_decide_eq_true_2 in Hin.
Qed.

Lemma finished_task_at_Wait a acts s w :
  exec acts (init a) = Some s →
  forallb is_finished (tasks s) = true →
  w ∈ what <$> tasks s →
  ∃ t r, t ∈ tasks s ∧ what t = w ∧ at_phase t = Finished r.
Proof.
  intros Hexec Hfin Hw. apply list_elem_of_fmap in Hw as (t & -> & Ht).
  apply Is_true_true_2, forallb_True in Hfin.
  apply (proj1 (Forall_forall _ _) Hfin) in Ht as Hf.
  unfold is_finished in Hf. destruct (at_phase t) as [| |r] eqn:Hp; try done.
  by exists t, r.
Qed.

(** When [Run] returns from [g.Wait()], [Start()] and [Stop()] of every
    configured server have been called exactly once and have returned. *)
Theorem servers_done_when_Run_returns (a : App) (acts : list action)
    (s s' : state) (r : option error) (j : nat) :
  exec acts (init a) = Some s →
  pc s = Waiting →
  step (Main r) s = Some s' →
  (j < length (servers (opts a)))%nat →
  times (is_event (EvStartCall j)) (history s) = 1%nat ∧
  times (is_event (EvStopCall j)) (history s) = 1%nat ∧
  (∃ r1, EvStartReturn j r1 ∈ history s) ∧
  (∃ r2, EvStopReturn j r2 ∈ history s).
Proof.
  intros Hexec Hpc Hstep Hj.
  simpl in Hstep. unfold main_step in Hstep. rewrite Hpc in Hstep.
  destruct (forallb is_finished (tasks s)) eqn:Hfin; [|done]. clear Hstep.
  pose proof (what_tasks_at_Wait a acts s Hexec Hpc) as Hsh.
  destruct (exec_calls_inv a acts s Hexec) as [Hc Hr].
  pose proof (has_called_at_most_one a acts s (StartOf j) Hexec) as Hle1.
  pose proof (has_called_at_most_one a acts s (StopOf j) Hexec) as Hle2.
  rewrite <- (Hc (StartOf j) _ eq_refl) in Hle1.
  rewrite <- (Hc (StopOf j) _ eq_refl) in Hle2.
  assert (∀ w, (w = StartOf j ∨ w = StopOf j) →
            ∃ t r, t ∈ tasks s ∧ what t = w ∧ at_phase t = Finished r) as Hex.
  { intros w Hw. apply (finished_task_at_Wait a acts s w Hexec Hfin).
    rewrite Hsh, elem_of_app, elem_of_jobs. left. exists j. tauto. }
  destruct (Hex (StartOf j)) as (t1 & r1 & Ht1 & Hw1 & Hp1); [by left|].
  destruct (Hex (StopOf j)) as (t2 & r2 & Ht2 & Hw2 & Hp2); [by right|].
  assert (1 ≤ times (is_event (EvStartCall j)) (history s))%nat.
  { rewrite (Hc (StartOf j) _ eq_refl).
    apply (filter_has_called_ge _ _ t1 Ht1). split; [done|]. by rewrite Hp1. }
  assert (1 ≤ times (is_event (EvStopCall j)) (history s))%nat.
  { rewrite (Hc (StopOf j) _ eq_refl).
    apply (filter_has_called_ge _ _ t2 Ht2). split; [done|]. by rewrite Hp2. }
  split; [lia|]. split; [lia|]. split.
  - exists r1. destruct (proj1 (Forall_forall _ _) Hr t1 Ht1 r1 Hp1) as [Hin _].
    by rewrite Hw1 in Hin.
  - exists r2. destruct (proj1 (Forall_forall _ _) Hr t2 Ht2 r2 Hp2) as [Hin _].
    by rewrite Hw2 in Hin.
Qed.

(** ** Shutting down *)

Lemma finish_task_quiet i t e s :
  tasks s !! i = Some t → well_phased t → g_ctx s = Some e →
  ∃ s' r, exec (finish_moves i t) s = Some s' ∧
          pc s' = pc s ∧ g_ctx s' = Some e ∧
          tasks s' = <[i := {| what := what t; at_phase := Finished r |}]> (tasks s) ∧
          g_err s' = quiet_err e (g_err s) [t].
Proof.
  intros Hi Hwp Hctx.
  assert (i < length (tasks s))%nat as Hlt by by eapply lookup_lt_Some.
  destruct t as [w p0]. unfold finish_moves, well_phased, quiet_err in *.
  simpl in *.
  destruct p0 as [| |r0], w; simpl; rewrite ?Hi; unfold task_step; simpl;
    rewrite ?Hctx; simpl; rewrite ?list_lookup_insert_eq by done; simpl;
    try (by destruct Hwp).
  all: unfold group_done, is_pending_watch; simpl;
    destruct (g_err s) eqn:Hge; simpl;
    eexists _, _; (split; [done|]); simpl;
    rewrite ?list_insert_insert_eq, ?Hctx, ?Hge; repeat split; try done;
    try (symmetry; by apply list_insert_id).
Qed.

Lemma quiet_err_cons e ge t ts :
  quiet_err e (quiet_err e ge [t]) ts = quiet_err e ge (t :: ts).
Proof.
  unfold quiet_err. destruct ge; [done|]. simpl.
  by destruct (is_pending_watch t).
Qed.

Lemma drain_quiet e rest : ∀ done s,
  tasks s = done ++ rest → Forall well_phased rest → g_ctx s = Some e →
  ∃ s' rest', exec (drain (length done) rest) s = Some s' ∧
              pc s' = pc s ∧
              tasks s' = done ++ rest' ∧
              forallb is_finished rest' = true ∧
              g_err s' = quiet_err e (g_err s) rest.
Proof.
  induction rest as [|t rest IH]; intros done s Ht Hwp Hctx.
  - exists s, []. repeat split; try done. unfold quiet_err. by destruct (g_err s).
  - apply Forall_cons in Hwp as [Hwt Hwp].
    assert (tasks s !! length done = Some t) as Hi.
    { rewrite Ht. by apply list_lookup_middle. }
    destruct (finish_task_quiet _ _ _ _ Hi Hwt Hctx)
      as (s1 & r & He1 & Hpc1 & Hctx1 & Ht1 & Hg1).
    rewrite Ht in Ht1. rewrite insert_app_r_alt, Nat.sub_diag in Ht1 by done.
    simpl in Ht1.
    destruct (IH (done ++ [{| what := what t; at_phase := Finished r |}]) s1)
      as (s' & rest' & He & Hpc & Ht' & Hfin & Hg); [|done|done|].
    { by rewrite <- (assoc_L (++)). }
    exists s', ({| what := what t; at_phase := Finished r |} :: rest').
    rewrite length_app, Nat.add_1_r in He.
    simpl drain. rewrite exec_app, He1. simpl.
    split; [exact He|]. split; [congruence|].
    split; [by rewrite Ht', <- (assoc_L (++))|]. split; [done|].
    by rewrite Hg, Hg1, quiet_err_cons.
Qed.

Lemma first_failure_elem h ev :
  ev ∈ h → is_Some (outcome ev) → is_Some (first_failure h).
Proof.
  induction h as [|ev' h IH]; intros Hin Hout; [by apply elem_of_nil in Hin|].
  simpl. destruct (outcome ev') eqn:He; [done|].
  apply elem_of_cons in Hin as [->|Hin]; [|by apply IH].
  rewrite He in Hout. by destruct Hout.
Qed.

(** In [g.Wait()], as long as no task has returned an error, the signal
    loop is still in its [select]. *)
Lemma watch_pending_at_Wait a acts s :
  exec acts (init a) = Some s →
  pc s = Waiting → g_err s = None →
  existsb is_pending_watch (tasks s) = true.
Proof.
  intros Hexec Hpc Hge.
  pose proof (what_tasks_at_Wait a acts s Hexec Hpc) as Hsh.
  destruct (exec_calls_inv a acts s Hexec) as [_ Hr].
  destruct (exec_group_inv a acts s Hexec) as [_ Hg].
  pose proof (exec_tasks_well_phased a acts s Hexec) as Hwp.
  assert (Watch ∈ what <$> tasks s) as Hw.
  { rewrite Hsh, elem_of_app. right. by apply list_elem_of_singleton. }
  apply list_elem_of_fmap in Hw as (t & Hwt & Ht).
  apply existsb_exists. exists t. split; [by apply list_elem_of_In|].
  unfold is_pending_watch. rewrite <- Hwt.
  destruct (at_phase t) as [| |r] eqn:Hp; [done| |].
  - by destruct (proj1 (Forall_forall _ _) Hwp t Ht).
  - destruct (proj1 (Forall_forall _ _) Hr t Ht r Hp) as [Hin Hsome].
    rewrite <- Hwt in Hin. simpl in Hin.
    assert (is_Some (first_failure (history s))) as [x Hx].
    { apply (first_failure_elem _ _ Hin). simpl. by apply Hsome. }
    congruence.
Qed.

Lemma drain_then_return a acts s e :
  exec acts (init a) = Some s →
  pc s = Waiting →
  g_ctx s = Some e →
  ∃ s', exec (drain 0 (tasks s) ++ [Main None]) s = Some s' ∧
        pc s' = Returned (after_Wait (Some (default e (g_err s)))).
Proof.
  intros Hexec Hpc Hctx.
  destruct (drain_quiet e (tasks s) [] s) as (s1 & rest' & He & Hpc1 & Ht & Hfin & Hg);
    [done|by apply (exec_tasks_well_phased a acts)|done|].
  simpl in Ht, He.
  assert (g_err s1 = Some (default e (g_err s))) as Hg1.
  { rewrite Hg. unfold quiet_err. destruct (g_err s) eqn:Hge; [done|].
    by rewrite (watch_pending_at_Wait a acts s Hexec Hpc Hge). }
  eexists. split.
  - rewrite exec_app, He. cbn [mbind option_bind exec step].
    unfold main_step. rewrite Hpc1, Hpc, Ht, Hfin. reflexivity.
  - simpl. by rewrite Hg1.
Qed.

(** In [g.Wait()] with the context of the group done with [e], [Run] can
    return (it does when the server calls that are pending return nil):
    it returns the error [g.err] holds, or [e] if no task has failed, but
    nil if that error is [context.Canceled]. *)
Theorem Run_can_return (a : App) (acts : list action) (s : state) (e : error) :
  exec acts (init a) = Some s →
  pc s = Waiting →
  g_ctx s = Some e →
  ∃ more s', exec more s = Some s' ∧
             pc s' = Returned (after_Wait (Some (default e (g_err s)))) ∧
             (g_err s = None → e = Canceled → pc s' = Returned None) ∧
             (g_err s = None → errors_Is e Canceled = false →
              pc s' = Returned (Some e)).
Proof.
  intros Hexec Hpc Hctx.
  destruct (drain_then_return a acts s e Hexec Hpc Hctx) as (s' & He & Hret).
  exists (drain 0 (tasks s) ++ [Main None]), s'.
  split; [done|]. split; [done|]. split.
  - intros Hge ->. by rewrite Hret, Hge.
  - intros Hge HE. rewrite Hret, Hge. simpl. by rewrite HE.
Qed.


(** The error of a failing [Deregister] on the signal path is lost and
    nothing is cancelled: after any number of signals whose [Deregister]
    fails, the context is still live, [Run] is still blocked in
    [g.Wait()] and no stop task can move. *)
Theorem deregister_failure_stalls (s : state) (i : nat) (reg : Registry)
    (sgs : list Signal) (sg : Signal) (es : list error) :
  pc s = Waiting →
  registry (opts (app s)) = Some reg →
  tasks s !! i = Some watcher →
  g_ctx s = None →
  notified s = Some sgs → relayed sgs sg = true → c s = None →
  ∃ s', exec (flat_map (λ e, [Deliver sg; Recv i (Some e)]) es) s = Some s' ∧
        app s' = app s ∧ g_ctx s' = None ∧ g_err s' = g_err s ∧
        tasks s' = tasks s ∧
        history s' = history s
                     ++ ((λ e, EvDeregister (instance (app s)) (Some e)) <$> es) ∧
        (∀ r, step (Main r) s' = None) ∧
        (∀ k j r, tasks s' !! k = Some {| what := StopOf j; at_phase := Pending |} →
                  step (Sched k r) s' = None).
Proof.
  revert s. induction es as [|e es IH]; intros s Hpc Hreg Hw Hctx Hn Hrel Hc.
  - exists s. simpl. rewrite app_nil_r. repeat split; try done.
    + intros r. simpl. unfold main_step. rewrite Hpc.
      assert (forallb is_finished (tasks s) = false) as ->; [|done].
      apply not_true_is_false. intros Hfin.
      apply Is_true_true_2, forallb_True in Hfin.
      apply list_elem_of_lookup_2 in Hw.
      by apply (proj1 (Forall_forall _ _) Hfin) in Hw.
    + intros k j r Hk. simpl. rewrite Hk. unfold task_step. simpl. by rewrite Hctx.
  - cbn [flat_map]. 
    pose proof (deliver_recv i sgs sg (Some e) s Hw Hn Hrel Hc) as H1.
    rewrite (Stop_deregister_failed s reg e Hreg) in H1. cbn [snd] in H1.
    destruct (IH (emit (EvDeregister (instance (app s)) (Some e)) s))
      as (s' & He & Ha & Hg & Hge & Ht & Hh & Hmain & Hstop); try done.
    exists s'. rewrite exec_app, H1. simpl mbind.
    split; [exact He|]. repeat split; try done.
    rewrite Hh. simpl. by rewrite <- (assoc_L (++)).
Qed.

Lemma deliver_full n sg sgs : ∀ s,
  notified s = Some sgs → relayed sgs sg = true → is_Some (c s) →
  exec (replicate n (Deliver sg)) s = Some s.
Proof.
  induction n as [|n IH]; intros s Hn Hrel [x Hc]; [done|].
  simpl. rewrite Hn, Hrel, Hc. apply IH; [done..|by eexists].
Qed.

(** The channel holds one signal: of a burst of signals that arrive
    before the signal loop runs, the loop sees one, and [Stop] is called
    once. *)
Theorem signal_burst (s : state) (i n : nat) (sgs : list Signal) (sg : Signal)
    (r r' : option error) :
  tasks s !! i = Some watcher →
  notified s = Some sgs → relayed sgs sg = true → c s = None →
  exec (replicate (S n) (Deliver sg) ++ [Recv i r]) s = Some (Stop r s).2 ∧
  exec (replicate (S n) (Deliver sg) ++ [Recv i r; Recv i r']) s = None.
Proof.
  intros Hw Hn Hrel Hc.
  assert (exec (replicate (S n) (Deliver sg)) s = Some (with_c (Some sg) s)) as Hd.
  { cbn [replicate exec step]. rewrite Hn, Hrel, Hc.
    apply (deliver_full n sg sgs); [done..|by eexists]. }
  assert (step (Recv i r) (with_c (Some sg) s) = Some (Stop r s).2) as Hr.
  { simpl. rewrite Hw. by rewrite (with_c_undo sg s Hc). }
  split.
  - rewrite exec_app, Hd. cbn [mbind option_bind exec]. by rewrite Hr.
  - rewrite exec_app, Hd. cbn [mbind option_bind exec]. rewrite Hr.
    destruct (Stop_frame r s) as (_ & _ & Hc' & _).
    simpl. rewrite Hc', Hc. by destruct (tasks (Stop r s).2 !! i) as [[[] []]|].
Qed.

(** ** The further statements at work *)

Lemma derived_endpoints_bounds_witness :
  (length (Endpoints (serviceInstance (opts app_two)).1) ≤ 2)%nat ∧
  Endpoints (serviceInstance (opts app_two)).1
  = ["http://127.0.0.1:8000"; "grpc://127.0.0.1:9000"].
Proof.
  destruct (derived_endpoints_bounds (opts app_two)) as (Hle & _ & Hall);
    [by vm_compute|].
  split; [exact Hle|]. rewrite Hall; [by vm_compute|].
  repeat constructor.
Defined.

Lemma getters_stable_witness :
  App_Server (app (run_to (stop_fails_after_signal ++ [Main None]) app_two))
  = [http; grpc] ∧
  App_Registry (app (run_to register_fails app_registry))
  = Some (RegistryHandle "etcd").
Proof.
  split.
  - destruct (getters_stable app_two (stop_fails_after_signal ++ [Main None])
                (run_to (stop_fails_after_signal ++ [Main None]) app_two))
      as (_ & -> & _); by vm_compute.
  - destruct (getters_stable app_registry register_fails
                (run_to register_fails app_registry))
      as (_ & _ & ->); by vm_compute.
Defined.

Lemma single_shot_witness :
  g_err (run_to start_fails app_two) = Some listen_failed ∧
  g_ctx (run_to start_fails app_two) = Some Canceled.
Proof.
  destruct (single_shot (run_to failed_start app_two)
              (run_to start_fails app_two) stops_follow)
    as (_ & Hctx & Herr & _); [by vm_compute|by vm_compute|].
  split; [apply Herr|apply Hctx]; by vm_compute.
Defined.

Lemma no_registry_no_calls_witness :
  EvDeregister (instance app_two) None
  ∉ history (run_to (stop_fails_after_signal ++ [Main None]) app_two).
Proof.
  apply (no_registry_no_calls app_two (stop_fails_after_signal ++ [Main None]));
    by vm_compute.
Defined.

Lemma Register_once_before_Notify_witness :
  EvRegister (instance app_registry) None ∈ history (run_to to_Wait app_registry).
Proof.
  destruct (Register_once_before_Notify app_registry to_Wait
              (run_to to_Wait app_registry)) as [_ H]; [by vm_compute|].
  apply (H [15; 3; 2]%Z (RegistryHandle "etcd")); by vm_compute.
Defined.

Lemma startup_line_once_witness :
  times is_infow (history (run_to start_fails app_two)) = 1%nat.
Proof.
  destruct (startup_line_once uuid_ok opts_two start_fails
              (run_to start_fails app_two))
    as (pre & post & _ & _ & H); [by vm_compute|by vm_compute|exact H].
Defined.

Lemma Stop_only_after_cancel_witness :
  is_Some (g_ctx (run_to stop_fails_after_signal app_two)).
Proof.
  apply (Stop_only_after_cancel app_two stop_fails_after_signal
           (run_to stop_fails_after_signal app_two) 1); [by vm_compute|].
  apply (bool_decide_unpack _). by vm_compute.
Defined.

Lemma group_at_Wait_witness :
  what <$> tasks (run_to to_Wait app_two)
  = [StopOf 0; StartOf 0; StopOf 1; StartOf 1; Watch].
Proof.
  destruct (group_at_Wait app_two to_Wait (run_to to_Wait app_two)) as [H _];
    [by vm_compute|by vm_compute|].
  rewrite H. by vm_compute.
Defined.

Lemma servers_called_at_most_once_witness :
  (times (is_event (EvStopCall 0)) (history (run_to start_fails app_two)) ≤ 1)%nat ∧
  EvStopCall 2 ∉ history (run_to start_fails app_two).
Proof.
  destruct (servers_called_at_most_once app_two start_fails
              (run_to start_fails app_two) 0) as (_ & H & _); [by vm_compute|].
  destruct (servers_called_at_most_once app_two start_fails
              (run_to start_fails app_two) 2) as (_ & _ & H2); [by vm_compute|].
  split; [exact H|]. apply H2. vm_compute. lia.
Defined.

Lemma servers_done_when_Run_returns_witness :
  times (is_event (EvStopCall 1)) (history (run_to start_fails app_two)) = 1%nat ∧
  ∃ r1, EvStartReturn 1 r1 ∈ history (run_to start_fails app_two).
Proof.
  destruct (servers_done_when_Run_returns app_two start_fails
              (run_to start_fails app_two)
              (run_to (start_fails ++ [Main None]) app_two) None 1)
    as (_ & H1 & H2 & _); [by vm_compute..|vm_compute; lia|].
  by split.
Defined.

Lemma Run_can_return_witness :
  (∃ more s', exec more (run_to deadline_passes app_deadline) = Some s' ∧
              pc s' = Returned (Some DeadlineExceeded)) ∧
  (∃ more s', exec more (run_to (to_Wait ++ [CallStop None]) app_registry) = Some s' ∧
              pc s' = Returned None).
Proof.
  split.
  - destruct (Run_can_return app_deadline deadline_passes
                (run_to deadline_passes app_deadline) DeadlineExceeded)
      as (more & s' & He & _ & _ & Hpc); [by vm_compute..|].
    exists more, s'. split; [exact He|]. apply Hpc; by vm_compute.
  - destruct (Run_can_return app_registry (to_Wait ++ [CallStop None])
                (run_to (to_Wait ++ [CallStop None]) app_registry) Canceled)
      as (more & s' & He & _ & Hpc & _); [by vm_compute..|].
    exists more, s'. split; [exact He|]. apply Hpc; by vm_compute.
Defined.


Lemma deregister_failure_stalls_witness :
  ∃ s', exec [Deliver SIGTERM; Recv 4 (Some etcd_down);
              Deliver SIGTERM; Recv 4 (Some etcd_down)]
             (run_to to_Wait app_registry) = Some s' ∧
        g_ctx s' = None ∧ step (Main None) s' = None.
Proof.
  destruct (deregister_failure_stalls (run_to to_Wait app_registry) 4
              (RegistryHandle "etcd") [15; 3; 2]%Z SIGTERM [etcd_down; etcd_down])
    as (s' & He & _ & Hg & _ & _ & _ & Hmain & _); [by vm_compute..|].
  exists s'. split; [exact He|]. split; [exact Hg|apply Hmain].
Defined.

Lemma signal_burst_witness :
  exec [Deliver SIGTERM; Deliver SIGTERM; Deliver SIGTERM; Recv 4 None; Recv 4 None]
       (run_to to_Wait app_two) = None.
Proof.
  apply (signal_burst (run_to to_Wait app_two) 4 2 [15; 3; 2]%Z SIGTERM None None);
    by vm_compute.
Defined.
